(** * File-backed torrent storage: extent translation and piece completion

    A shallow embedding of [storage/file.go] and [storage/file_piece.go]:
    the handle cache ([OpenFile]), the zero-length file materializer
    ([CreateNativeZeroLengthFiles]), the extent translator ([readFileAt],
    [ReadAt], [WriteAt]) and the completion check ([Completion]).

    Go's [int64] is a [Z] with its wrap-around written out ([Int64.add],
    [Int64.sub]); a slice expression whose bounds are out of range is an
    [Abort SliceBounds] (Go's run-time panic).  Byte buffers are [list byte];
    a destination buffer [b] is represented by its length and the bytes
    stored into its prefix are returned.  The file system and the
    completion store are explicit state. *)

From Stdlib Require Import ZArith Lia.
From stdpp Require Import gmap strings list fin_maps.

Local Open Scope Z_scope.

(** ** 64-bit signed integers *)

Module Int64.

Definition half : Z := 9223372036854775808.
Definition modulus : Z := 18446744073709551616.

Definition wrap (x : Z) : Z := (x + half) mod modulus - half.

Definition add (a b : Z) : Z := wrap (a + b).
Definition sub (a b : Z) : Z := wrap (a - b).

Definition in_range (x : Z) : Prop := - half <= x < half.

End Int64.

(** ** Data model *)

Abbreviation byte := Byte.byte.

(** [error] values the code produces or passes on; Go's [nil] error is
    [None : option error]. *)
Inductive error : Type :=
| EOF                                       (* io.EOF *)
| ErrUnexpectedEOF                          (* io.ErrUnexpectedEOF *)
| PathError (op : string) (name : string)   (* *os.PathError *)
| StoreError.                               (* a failing completion store *)

(** [err != nil] *)
Definition is_err (err : option error) : bool :=
  match err with Some _ => true | None => false end.

(** Modelled from the spec: the types of the metainfo package, which are not
    among the sources.  metainfo.FileInfo is the spec's "FileEntry{
    pathSegments: sequence of string, length }"; the length is an [int64],
    as the code compares and subtracts it. *)
Record FileInfo : Type := mkFileInfo {
  Length : Z;
  Path : list string;
}.

(** Modelled from the spec: metainfo.Info, "torrent display name; ordered
    sequence of FileEntry; piece length", with the number of pieces.  [Files]
    holds the entries as [UpvertedFiles] lists them. *)
Record Info : Type := mkInfo {
  Name : string;
  Files : list FileInfo;
  PieceLength : Z;
  NumPieces : Z;
}.

Definition UpvertedFiles (info : Info) : list FileInfo := Files info.

(** Modelled from the spec: "Total torrent length = sum of all entry
    lengths". *)
Definition TotalLengthOf (files : list FileInfo) : Z :=
  foldr (fun fi acc => Length fi + acc) 0 files.

Definition TotalLength (info : Info) : Z := TotalLengthOf (UpvertedFiles info).

(** Modelled from the spec: metainfo.Piece, the piece descriptor: the info it
    belongs to and its index. *)
Record Piece : Type := mkPiece {
  PInfo : Info;
  Index : Z;
}.

(** Modelled from the spec: [Offset] and [Length] of a piece (here [PLength],
    [Length] being the field of an entry), "derived offset = index x
    pieceLength; derived length = pieceLength, except the final piece whose
    length = totalLength - offset". *)
Definition Offset (p : Piece) : Z := Index p * PieceLength (PInfo p).

Definition PLength (p : Piece) : Z :=
  if Index p =? NumPieces (PInfo p) - 1
  then TotalLength (PInfo p) - Offset p
  else PieceLength (PInfo p).

(** Modelled from the spec: metainfo.PieceKey, "(infoHash, pieceIndex)". *)
Abbreviation PieceKey := (string * Z)%type.

(** Modelled from the spec: storage.Completion, the spec's
    "CompletionRecord: { ok: bool, complete: bool }". *)
Record CompletionRec : Type := mkCompletion {
  Complete : bool;
  Ok : bool;
}.

(** ** The operating system's files *)

(** An open file ([os.File]): its descriptor and the name it was opened
    under.  The model identifies an open file with the file at its name. *)
Record File : Type := mkFile {
  fd : nat;
  fname : string;
}.

(** File-local positional operations, as the file system receives them. *)
Inductive FileOp : Type :=
| OpRead (name : string) (off : Z) (len : nat)
| OpWrite (name : string) (off : Z) (data : list byte).

(** Regular files by absolute name, the names at which creating or opening
    a file fails, the next free descriptor and the positional operations
    issued so far (oldest first).  Directories are not modelled. *)
Record World : Type := mkWorld {
  disk : gmap string (list byte);
  denied : gset string;
  next_fd : nat;
  trace : list FileOp;
}.

(** os.Stat(name) does not report that the file does not exist. *)
Definition os_exists (w : World) (name : string) : bool :=
  match disk w !! name with Some _ => true | None => false end.

(** os.OpenFile(name, O_APPEND|O_RDWR|O_CREATE, 0660): opens the file,
    creating it empty when it is missing.  The file is used for positional
    reads and writes only, which the model sends to their offset. *)
Definition os_OpenFile (w : World) (name : string) : (File + error) * World :=
  if decide (name ∈ denied w) then (inr (PathError "open" name), w)
  else
    let d := match disk w !! name with
             | Some _ => disk w
             | None => <[name := []]> (disk w)
             end in
    (inl (mkFile (next_fd w) name),
     mkWorld d (denied w) (S (next_fd w)) (trace w)).

(** os.Create(name) followed by Close: the file exists and is empty. *)
Definition os_Create (w : World) (name : string) : option error * World :=
  if decide (name ∈ denied w) then (Some (PathError "open" name), w)
  else (None, mkWorld (<[name := []]> (disk w)) (denied w) (next_fd w) (trace w)).

Definition file_content (w : World) (name : string) : list byte :=
  default [] (disk w !! name).

(** os.File.ReadAt: reads up to [blen] bytes at [off]; end-of-file when
    fewer are available. *)
Definition File_ReadAt (w : World) (f : File) (blen : nat) (off : Z)
  : (list byte * option error) * World :=
  if off <? 0 then (([], Some (PathError "readat" (fname f))), w)
  else
    let data := take blen (drop (Z.to_nat off) (file_content w (fname f))) in
    ((data, if (length data <? blen)%nat then Some EOF else None),
     mkWorld (disk w) (denied w) (next_fd w)
             (trace w ++ [OpRead (fname f) off blen])).

(** The content of a file after [data] has been written at [off]: a gap
    between the old end and [off] reads as zeros, and writing nothing changes
    nothing. *)
Definition write_at (c : list byte) (off : nat) (data : list byte) : list byte :=
  match data with
  | [] => c
  | _ => take off c ++ replicate (off - length c)%nat Byte.x00
         ++ data ++ drop (off + length data)%nat c
  end.

(** os.File.WriteAt, a positional write (the io.WriterAt contract). *)
Definition File_WriteAt (w : World) (f : File) (data : list byte) (off : Z)
  : (nat * option error) * World :=
  if off <? 0 then ((0%nat, Some (PathError "writeat" (fname f))), w)
  else
    ((length data, None),
     mkWorld (<[fname f := write_at (file_content w (fname f)) (Z.to_nat off) data]> (disk w))
             (denied w) (next_fd w)
             (trace w ++ [OpWrite (fname f) off data])).

(** os.File.Stat: the size, or no result when the file is gone. *)
Definition File_Stat (w : World) (f : File) : option Z :=
  (fun c => Z.of_nat (length c)) <$> disk w !! fname f.

(** filepath.Join: the non-empty elements separated by a slash (the lexical
    cleaning of the result is not modelled). *)
Fixpoint filepath_Join (elems : list string) : string :=
  match elems with
  | [] => ""
  | e :: rest =>
      if decide (e = "") then filepath_Join rest
      else let t := filepath_Join rest in
           if decide (t = "") then e else e +:+ "/" +:+ t
  end.

(** ** The completion store *)

(** Modelled from the spec: the completion store behind the
    [PieceCompletion] interface (its implementations are not among the
    sources), "get(pieceKey) -> CompletionRecord, set(pieceKey, complete:
    bool) -> Error?", where "ok=false means the store has no opinion (e.g.,
    never recorded)".  [broken] makes every call fail; [sets] lists the set
    operations issued so far, oldest first. *)
Record PieceCompletion : Type := mkPC {
  records : gmap PieceKey bool;
  broken : bool;
  sets : list (PieceKey * bool);
}.

Definition pc_Get (pc : PieceCompletion) (pk : PieceKey)
  : CompletionRec * option error :=
  if broken pc then (mkCompletion false false, Some StoreError)
  else match records pc !! pk with
       | Some c => (mkCompletion c true, None)
       | None => (mkCompletion false false, None)
       end.

Definition pc_Set (pc : PieceCompletion) (pk : PieceKey) (b : bool)
  : option error * PieceCompletion :=
  if broken pc then (Some StoreError, mkPC (records pc) true (sets pc ++ [(pk, b)]))
  else (None, mkPC (<[pk := b]> (records pc)) false (sets pc ++ [(pk, b)])).

(** ** Torrent store state and the monad of the operations *)

(** fileTorrentHandle; its mutex guards single file-local operations and
    has no effect on a sequential run. *)
Record fileTorrentHandle : Type := mkHandle {
  f : File;
  path : string;
}.

(** The immutable fields of fileTorrentImpl. *)
Record fileTorrentImpl : Type := mkTorrent {
  dir : string;
  info : Info;
  infoHash : string;
}.

(** The mutable state the operations share: the file system, the handle map
    of the torrent store and the completion store. *)
Record State : Type := mkState {
  os : World;
  handles : gmap string fileTorrentHandle;
  completion : PieceCompletion;
}.

Definition set_os (st : State) (w : World) : State :=
  mkState w (handles st) (completion st).

Inductive abort : Type :=
| SliceBounds   (* run-time panic: slice bounds out of range *)
| OutOfFuel.    (* a loop did not finish within its fuel *)

Inductive outcome (A : Type) : Type :=
| Done (a : A) (st : State)
| Abort (r : abort).
Arguments Done {A} a st.
Arguments Abort {A} r.

Definition M (A : Type) : Type := State -> outcome A.

Definition ret {A} (a : A) : M A := fun st => Done a st.

Definition bind {A B} (m : M A) (k : A -> M B) : M B :=
  fun st => match m st with
            | Done a st' => k a st'
            | Abort r => Abort r
            end.

Definition panic {A} (r : abort) : M A := fun _ => Abort r.

Notation "'let*' x := m 'in' k" := (bind m (fun x => k))
  (at level 10, x pattern, m at level 200, k at level 200).

(** Lifting of the file system's primitives. *)
Definition lift_os {A} (op : World -> A * World) : M A :=
  fun st => let '(a, w) := op (os st) in Done a (set_os st w).

(** ** The handle cache *)

(** The absolute name of the file of an entry. *)
Definition fileInfoName (fs : fileTorrentImpl) (fi : FileInfo) : string :=
  filepath_Join (dir fs :: Name (info fs) :: Path fi).

(** Returns the cached handle of the file, or opens the file and caches the
    handle; a file that does not exist is created only if [creatable]. *)
Definition OpenFile (fs : fileTorrentImpl) (fi : FileInfo) (creatable : bool)
  : M (fileTorrentHandle + error) :=
  fun st =>
    let filename := fileInfoName fs fi in
    match handles st !! filename with
    | Some h => Done (inl h) st
    | None =>
        if negb (os_exists (os st) filename) && negb creatable
        then Done (inr EOF) st
        else
          match os_OpenFile (os st) filename with
          | (inr err, w) => Done (inr err) (set_os st w)
          | (inl file, w) =>
              let h := mkHandle file filename in
              Done (inl h)
                   (mkState w (<[filename := h]> (handles st)) (completion st))
          end
    end.

(** ** The extent translator: reads *)

(** The loop of [readFileAt]; [acc] holds the bytes read so far and [fuel]
    bounds the iterations (each one that continues consumes part of [b]). *)
Fixpoint readFileAt_loop (fuel : nat) (h : fileTorrentHandle) (len_fi : Z)
    (blen : nat) (off : Z) (acc : list byte) : M (list byte * option error) :=
  if (off <? len_fi) && negb (blen =? 0)%nat then
    match fuel with
    | O => panic OutOfFuel
    | S fuel' =>
        let* (data, err1) := lift_os (fun w => File_ReadAt w (f h) blen off) in
        let n1 := length data in
        if (blen <? n1)%nat then panic SliceBounds
        else if (n1 =? 0)%nat then ret (acc ++ data, err1)
        else readFileAt_loop fuel' h len_fi (blen - n1)%nat
                             (Int64.add off (Z.of_nat n1)) (acc ++ data)
    end
  else ret (acc, None).

(** Returns EOF on short or missing file. *)
Definition readFileAt (fs : fileTorrentImpl) (fi : FileInfo) (blen : nat) (off : Z)
  : M (list byte * option error) :=
  let* r := OpenFile fs fi false in
  match r with
  | inr err => ret ([], Some err)
  | inl h =>
      (* Limit the read to within the expected bounds of this file. *)
      let d := Int64.sub (Length fi) off in
      if Z.of_nat blen >? d then
        if d <? 0 then panic SliceBounds
        else readFileAt_loop (S (Z.to_nat d)) h (Length fi) (Z.to_nat d) off []
      else readFileAt_loop (S blen) h (Length fi) blen off []
  end.

(** How the inner loop of [ReadAt] leaves one file entry: the function
    returns, or the walk goes on to the next entry. *)
Inductive ReadCtl : Type :=
| Return (data : list byte) (err : option error)
| Next (data : list byte) (blen : nat) (off : Z).

Definition premature (err1 : option error) : option error :=
  match err1 with
  | Some EOF => Some ErrUnexpectedEOF   (* Lies. *)
  | _ => err1
  end.

(** The inner loop [for off < fi.Length] of [ReadAt] on the entry [fi].  An
    iteration that continues has read at least one byte of the [blen] that
    are wanted, so [S blen] iterations are enough. *)
Fixpoint ReadAt_file (fuel : nat) (fs : fileTorrentImpl) (fi : FileInfo)
    (blen : nat) (off : Z) (acc : list byte) : M ReadCtl :=
  if off <? Length fi then
    match fuel with
    | O => panic OutOfFuel
    | S fuel' =>
        let* (data, err1) := readFileAt fs fi blen off in
        let n1 := length data in
        if (blen <? n1)%nat then panic SliceBounds
        else if (blen - n1 =? 0)%nat then ret (Return (acc ++ data) None)
        else if negb (n1 =? 0)%nat then
          ReadAt_file fuel' fs fi (blen - n1)%nat (Int64.add off (Z.of_nat n1))
                      (acc ++ data)
        else ret (Return (acc ++ data) (premature err1))
    end
  else ret (Next acc blen off).

(** The loop of [ReadAt] over the file entries. *)
Fixpoint ReadAt_files (fs : fileTorrentImpl) (files : list FileInfo)
    (blen : nat) (off : Z) (acc : list byte) : M (list byte * option error) :=
  match files with
  | [] => ret (acc, Some EOF)
  | fi :: rest =>
      let* c := ReadAt_file (S blen) fs fi blen off acc in
      match c with
      | Return data err => ret (data, err)
      | Next data blen' off' =>
          ReadAt_files fs rest blen' (Int64.sub off' (Length fi)) data
      end
  end.

(** Only returns EOF at the end of the torrent. Premature EOF is
    ErrUnexpectedEOF. *)
Definition ReadAt (fs : fileTorrentImpl) (blen : nat) (off : Z)
  : M (list byte * option error) :=
  ReadAt_files fs (UpvertedFiles (info fs)) blen off [].

(** ** The extent translator: writes *)

(** The loop of [WriteAt] over the file entries; [n] counts the bytes
    written so far. *)
Fixpoint WriteAt_files (fs : fileTorrentImpl) (files : list FileInfo)
    (p : list byte) (off : Z) (n : nat) : M (nat * option error) :=
  match files with
  | [] => ret (n, None)
  | fi :: rest =>
      if off >=? Length fi then
        WriteAt_files fs rest p (Int64.sub off (Length fi)) n
      else
        let n1 := if Z.of_nat (length p) >? Int64.sub (Length fi) off
                  then Int64.sub (Length fi) off
                  else Z.of_nat (length p) in
        let* r := OpenFile fs fi true in
        match r with
        | inr err => ret (n, Some err)
        | inl h =>
            if n1 <? 0 then panic SliceBounds
            else
              let* (n1', err) :=
                lift_os (fun w => File_WriteAt w (f h) (take (Z.to_nat n1) p) off) in
              match err with
              | Some e => ret (n, Some e)
              | None =>
                  let p' := drop n1' p in
                  if (length p' =? 0)%nat then ret ((n + n1')%nat, None)
                  else WriteAt_files fs rest p' 0 (n + n1')%nat
              end
        end
  end.

Definition WriteAt (fs : fileTorrentImpl) (p : list byte) (off : Z)
  : M (nat * option error) :=
  WriteAt_files fs (UpvertedFiles (info fs)) p off 0%nat.

(** ** Opening a torrent and the zero-length file materializer *)

Fixpoint CreateNativeZeroLengthFiles_loop (info : Info) (dir : string)
    (files : list FileInfo) (w : World) : option error * World :=
  match files with
  | [] => (None, w)
  | fi :: rest =>
      if negb (Length fi =? 0) then CreateNativeZeroLengthFiles_loop info dir rest w
      else
        let name := filepath_Join (dir :: Name info :: Path fi) in
        match os_Create w name with
        | (Some err, w') => (Some err, w')
        | (None, w') => CreateNativeZeroLengthFiles_loop info dir rest w'
        end
  end.

(** Creates natives files for any zero-length file entries in the info. *)
Definition CreateNativeZeroLengthFiles (info : Info) (dir : string) (w : World)
  : option error * World :=
  CreateNativeZeroLengthFiles_loop info dir (UpvertedFiles info) w.

(** File-based storage that isn't yet bound to a particular torrent. *)
Record fileClientImpl : Type := mkClient {
  baseDir : string;
  pathMaker : string -> Info -> string -> string;
}.

(** The Default path maker just returns the current path *)
Definition defaultPathMaker (baseDir : string) (info : Info) (infoHash : string)
  : string := baseDir.

(** On success the torrent store starts with an empty handle map. *)
Definition OpenTorrent (c : fileClientImpl) (info : Info) (infoHash : string)
    (w : World)
  : (fileTorrentImpl * gmap string fileTorrentHandle + error) * World :=
  let dir := pathMaker c (baseDir c) info infoHash in
  match CreateNativeZeroLengthFiles info dir w with
  | (Some err, w') => (inr err, w')
  | (None, w') => (inl (mkTorrent dir info infoHash, ∅), w')
  end.

(** ** The piece view *)


(** io.SectionReader over an io.ReaderAt, with [limit = base + n]. *)
Definition SectionReader_ReadAt (r : nat -> Z -> M (list byte * option error))
    (base limit : Z) (blen : nat) (off : Z) : M (list byte * option error) :=
  if (off <? 0) || (off >=? Int64.sub limit base) then ret ([], Some EOF)
  else
    let off := Int64.add off base in
    let max := Int64.sub limit off in
    if Z.of_nat blen >? max then
      if max <? 0 then panic SliceBounds
      else
        let* (data, err) := r (Z.to_nat max) off in
        ret (data, match err with None => Some EOF | _ => err end)
    else r blen off.

(** filePieceImpl: the torrent store, the piece, and the section writer and
    reader that [Piece] builds over [fileTorrentImplIO]. *)
Record filePieceImpl : Type := mkFilePiece {
  fts : fileTorrentImpl;
  p : Piece;
}.

Definition Piece_of (fts : fileTorrentImpl) (p : Piece) : filePieceImpl :=
  mkFilePiece fts p.


Definition Piece_ReadAt (me : filePieceImpl) (blen : nat) (off : Z)
  : M (list byte * option error) :=
  SectionReader_ReadAt (ReadAt (fts me)) (Offset (p me))
                       (Int64.add (Offset (p me)) (PLength (p me))) blen off.

Definition pieceKey (me : filePieceImpl) : PieceKey :=
  (infoHash (fts me), Index (p me)).

(** ** Piece completion *)

Definition completion_Get (pk : PieceKey) : M (CompletionRec * option error) :=
  fun st => Done (pc_Get (completion st) pk) st.

Definition completion_Set (pk : PieceKey) (b : bool) : M (option error) :=
  fun st => let '(e, pc') := pc_Set (completion st) pk b in
            Done e (mkState (os st) (handles st) pc').

(** Modelled from the spec: [extentCompleteRequiredLengths] (a helper of the
    storage package that is not among the sources), "every file entry whose
    span overlaps the piece's byte range, using the required covered length
    (the larger of what the piece's range actually demands from that file) -
    a zero-length file entry is trivially satisfied and skipped".  The
    required length of an entry is the file-local end of the range in it. *)
Fixpoint extentCompleteRequiredLengths_files (files : list FileInfo) (off n : Z)
  : list FileInfo :=
  match files with
  | [] => []
  | fi :: rest =>
      if n <=? 0 then []
      else if off >=? Length fi then
        extentCompleteRequiredLengths_files rest (off - Length fi) n
      else
        let n1 := Z.min n (Length fi - off) in
        mkFileInfo (off + n1) (Path fi)
          :: extentCompleteRequiredLengths_files rest 0 (n - n1)
  end.

Definition extentCompleteRequiredLengths (info : Info) (off n : Z) : list FileInfo :=
  extentCompleteRequiredLengths_files (UpvertedFiles info) off n.

Definition not_complete (c : CompletionRec) : CompletionRec :=
  mkCompletion false (Ok c).

(** The loop of [Completion] over the required entries. *)
Fixpoint Completion_check (fs : fileTorrentImpl) (required : list FileInfo)
    (c : CompletionRec) : M CompletionRec :=
  match required with
  | [] => ret c
  | fi :: rest =>
      let* r := OpenFile fs fi false in
      match r with
      | inr _ => ret (not_complete c)
      | inl h =>
          fun st =>
            match File_Stat (os st) (f h) with
            | None => Done (not_complete c) st
            | Some size =>
                if size <? Length fi then Done (not_complete c) st
                else Completion_check fs rest c st
            end
      end
  end.

Definition Completion (me : filePieceImpl) : M CompletionRec :=
  let* (c, err) := completion_Get (pieceKey me) in
  if is_err err || negb (Ok c) then ret (mkCompletion false false)
  else
    (* If it's allegedly complete, check that its constituent files have the
       necessary length. *)
    let* c := Completion_check (fts me)
                (extentCompleteRequiredLengths (PInfo (p me)) (Offset (p me))
                                               (PLength (p me))) c in
    if negb (Complete c) then
      (* The completion was wrong, fix it. *)
      let* _ := completion_Set (pieceKey me) false in ret c
    else ret c.


Definition MarkNotComplete (me : filePieceImpl) : M (option error) :=
  completion_Set (pieceKey me) false.

(** * Vocabulary of the properties *)

(** ** Invariant of the handle map *)

(** Every cached handle is filed under the name it was opened with, its
    descriptor has been allocated, and no descriptor is cached twice. *)
Definition cache_inv (st : State) : Prop :=
  (forall k h, handles st !! k = Some h ->
     path h = k /\ fname (f h) = k /\ (fd (f h) < next_fd (os st))%nat) /\
  (forall k1 k2 h1 h2, handles st !! k1 = Some h1 -> handles st !! k2 = Some h2 ->
     fd (f h1) = fd (f h2) -> k1 = k2).

(** How the state may change between two points of a run of the translator:
    handles are only added, the completion store and the denied names stay,
    and the positional operations issued in between all satisfy [P]. *)
Definition evolves (P : FileOp -> Prop) (st st' : State) : Prop :=
  denied (os st') = denied (os st) /\
  completion st' = completion st /\
  (forall k h, handles st !! k = Some h -> handles st' !! k = Some h) /\
  (cache_inv st -> cache_inv st') /\
  (forall k, is_Some (disk (os st) !! k) -> is_Some (disk (os st') !! k)) /\
  exists ops, trace (os st') = trace (os st) ++ ops /\ Forall P ops.

(** ** The handle cache *)

(** The state after [OpenFile] had to open the file itself. *)
Definition opened (st : State) (name : string) : State :=
  let h := mkHandle (mkFile (next_fd (os st)) name) name in
  mkState (mkWorld (match disk (os st) !! name with
                    | Some _ => disk (os st)
                    | None => <[name := []]> (disk (os st))
                    end)
                   (denied (os st)) (S (next_fd (os st))) (trace (os st)))
          (<[name := h]> (handles st)) (completion st).

(** ** File-local reads *)

(** A positional operation on the file [name] that stays inside the first
    [len_fi] bytes. *)
Definition within (name : string) (len_fi : Z) (op : FileOp) : Prop :=
  match op with
  | OpRead n o l => n = name /\ 0 <= o /\ o + Z.of_nat l <= len_fi
  | OpWrite n o d => n = name /\ 0 <= o /\ o + Z.of_nat (length d) <= len_fi
  end.

Definition within_entry (fs : fileTorrentImpl) (fi : FileInfo) : FileOp -> Prop :=
  within (fileInfoName fs fi) (Length fi).

Definition within_files (fs : fileTorrentImpl) (files : list FileInfo)
    (op : FileOp) : Prop :=
  exists fi, fi ∈ files /\ within_entry fs fi op.

(** [OpenFile fs fi false] succeeds: the handle is cached, or the file exists
    and can be opened. *)
Definition readable (fs : fileTorrentImpl) (fi : FileInfo) (st : State) : Prop :=
  is_Some (handles st !! fileInfoName fs fi) \/
  (is_Some (disk (os st) !! fileInfoName fs fi) /\
   fileInfoName fs fi ∉ denied (os st)).

(** The error of a failing [OpenFile fs fi false]. *)
Definition open_error (st : State) (name : string) : error :=
  if os_exists (os st) name then PathError "open" name else EOF.

(** ** The read walk through one file entry *)

(** How [ReadAt]'s inner loop leaves the entry [fi], entered at the local
    offset [off] with [blen] bytes still wanted: the entry is skipped; or its
    file can be opened and gives the bytes [d] it has in the clamped range,
    which fill the buffer, reach the end of the entry, or stop short of both;
    or its file cannot be opened. *)
Definition read_entry_result (fs : fileTorrentImpl) (fi : FileInfo)
    (blen : nat) (off : Z) (acc : list byte) (st : State) (ctl : ReadCtl) : Prop :=
  let name := fileInfoName fs fi in
  let m := (blen `min` Z.to_nat (Length fi - off))%nat in
  let d := take m (drop (Z.to_nat off) (file_content (os st) name)) in
  (Length fi <= off /\ ctl = Next acc blen off) \/
  (off < Length fi /\ readable fs fi st /\
   ((length d = blen /\ ctl = Return (acc ++ d) None) \/
    ((length d < blen)%nat /\ off + Z.of_nat (length d) = Length fi /\
     ctl = Next (acc ++ d) (blen - length d)%nat (Length fi)) \/
    ((length d < blen)%nat /\ off + Z.of_nat (length d) < Length fi /\
     ctl = Return (acc ++ d) (Some ErrUnexpectedEOF)))) \/
  (off < Length fi /\ ~ readable fs fi st /\
   ((blen = 0%nat /\ ctl = Return acc None) \/
    (blen <> 0%nat /\ ctl = Return acc (premature (Some (open_error st name)))))).

(** ** The read walk through the file list *)

(** Entry lengths as a torrent has them: not negative, and their sum an
    [int64]. *)
Definition files_ok (files : list FileInfo) : Prop :=
  Forall (fun fi => 0 <= Length fi) files /\ TotalLengthOf files < Int64.half.

(** The three ways a read of a non-empty buffer ends: the buffer is filled;
    the file entries are exhausted; or the walk stops inside the declared
    lengths because a file gives no byte there or cannot be opened. *)
Definition read_outcome (fs : fileTorrentImpl) (files : list FileInfo) (st : State)
    (blen : nat) (off : Z) (d : list byte) (err : option error) : Prop :=
  (length d = blen /\ off + Z.of_nat (length d) <= TotalLengthOf files /\ err = None) \/
  ((length d < blen)%nat /\
   off + Z.of_nat (length d) = Z.max off (TotalLengthOf files) /\
   err = Some EOF) \/
  ((length d < blen)%nat /\ off + Z.of_nat (length d) < TotalLengthOf files /\
   (err = Some ErrUnexpectedEOF \/
    exists fi, fi ∈ files /\ fileInfoName fs fi ∈ denied (os st) /\
               err = Some (PathError "open" (fileInfoName fs fi)))).

(** ** The write walk through one file entry *)

(** [OpenFile fs fi true] succeeds: the handle is cached or the file can be
    opened or created. *)
Definition writable (fs : fileTorrentImpl) (fi : FileInfo) (st : State) : Prop :=
  is_Some (handles st !! fileInfoName fs fi) \/
  fileInfoName fs fi ∉ denied (os st).

(** [st1] is [st] after one positional write of [data] at [off] into the file
    of the entry [fi], through the handle cache. *)
Definition wrote (fs : fileTorrentImpl) (fi : FileInfo) (data : list byte)
    (off : Z) (st st1 : State) : Prop :=
  let name := fileInfoName fs fi in
  evolves (within_entry fs fi) st st1 /\
  trace (os st1) = trace (os st) ++ [OpWrite name off data] /\
  disk (os st1)
  = <[name := write_at (file_content (os st) name) (Z.to_nat off) data]> (disk (os st)) /\
  is_Some (handles st1 !! name).

(** ** The write walk through the file list *)


(** ** A concrete torrent *)

(** Three entries, the empty [z], [a] (2 bytes) and [b] (3 bytes), in pieces
    of 4 bytes, stored under the directory [d]. *)
Definition fi_a : FileInfo := mkFileInfo 2 ["a"].
Definition fi_z : FileInfo := mkFileInfo 0 ["z"].
Definition fi_b : FileInfo := mkFileInfo 3 ["b"].
Definition info_ex : Info := mkInfo "t" [fi_z; fi_a; fi_b] 4 2.
Definition fs_ex : fileTorrentImpl := mkTorrent "d" info_ex "h".
Definition pc_ex : PieceCompletion := mkPC ∅ false [].

(** Nothing on disk and nothing opened yet. *)
Definition st_ex : State := mkState (mkWorld ∅ ∅ 0 []) ∅ pc_ex.

(** What a run returns, without the state it leaves. *)
Definition returned {A} (o : outcome A) : option A :=
  match o with
  | Done a _ => Some a
  | Abort _ => None
  end.

(** Entries that are not independent files: both name the same file. *)
Definition info_dup : Info := mkInfo "t" [fi_a; fi_a] 4 1.
Definition fs_dup : fileTorrentImpl := mkTorrent "d" info_dup "h".

(** The file of [b] is on disk with one byte of its three. *)
Definition st_short : State :=
  mkState (mkWorld {["d/t/a" := [Byte.x01; Byte.x02]; "d/t/b" := [Byte.x03] ]} ∅ 0 [])
          ∅ pc_ex.

(** Only the empty file of [z] is on disk. *)
Definition st_z : State := mkState (mkWorld {["d/t/z" := [] ]} ∅ 0 []) ∅ pc_ex.

(** Only the file of [b] is on disk. *)
Definition st_b : State :=
  mkState (mkWorld {["d/t/b" := [Byte.x03; Byte.x04; Byte.x05]]} ∅ 0 []) ∅ pc_ex.

(** ** Stored ranges *)


(** In the state [st], the files of the entries hold the bytes [p] at the
    torrent offsets from [off] on, and can be opened for reading. *)
Fixpoint holds (fs : fileTorrentImpl) (st : State) (files : list FileInfo)
    (off : Z) (p : list byte) : Prop :=
  match files with
  | [] => p = []
  | fi :: rest =>
      if off >=? Length fi then holds fs st rest (off - Length fi) p
      else
        let n1 := (length p `min` Z.to_nat (Length fi - off))%nat in
        readable fs fi st /\
        take n1 (drop (Z.to_nat off) (file_content (os st) (fileInfoName fs fi)))
        = take n1 p /\
        ((n1 < length p)%nat -> holds fs st rest 0 (drop n1 p))
  end.

Definition piece0_ex : filePieceImpl := Piece_of fs_ex (mkPiece info_ex 0).

(** ** Required files *)

(** The file of the required entry [fi] is on disk with at least the
    required length. *)
Definition file_has_length (fs : fileTorrentImpl) (st : State) (fi : FileInfo) : Prop :=
  exists content, disk (os st) !! fileInfoName fs fi = Some content /\
                  Length fi <= Z.of_nat (length content).


Definition no_op (op : FileOp) : Prop := False.

Definition required_of (me : filePieceImpl) : list FileInfo :=
  extentCompleteRequiredLengths (PInfo (p me)) (Offset (p me)) (PLength (p me)).

(** The state after [Completion] has written [false] back for its piece. *)
Definition corrected (me : filePieceImpl) (st : State) : State :=
  mkState (os st) (handles st) (snd (pc_Set (completion st) (pieceKey me) false)).

(** The store claims piece 0 complete, with nothing on disk. *)
Definition st_claimed : State :=
  mkState (mkWorld ∅ ∅ 0 []) ∅ (mkPC {[("h", 0) := true]} false []).


(** ** One handle per path *)

(** No two entries of the handle map are for the same path. *)
Definition one_handle_per_path (st : State) : Prop :=
  forall k1 k2 h1 h2,
    handles st !! k1 = Some h1 -> handles st !! k2 = Some h2 ->
    path h1 = path h2 -> k1 = k2 /\ h1 = h2.

(** ** Materialized files *)

(** The name [CreateNativeZeroLengthFiles] gives the file of an entry. *)
Definition native_name (info : Info) (dir : string) (fi : FileInfo) : string :=
  filepath_Join (dir :: Name info :: Path fi).

Global Arguments native_name : simpl never.

(** The disk after the files of the zero-length entries of [files] have
    been created, in order. *)
Fixpoint materialized (info : Info) (dir : string) (files : list FileInfo)
    (d : gmap string (list byte)) : gmap string (list byte) :=
  match files with
  | [] => d
  | fi :: rest =>
      materialized info dir rest
        (if Length fi =? 0 then <[native_name info dir fi := []]> d else d)
  end.

(** The file of a zero-length entry can be created. *)
Definition creatable_entry (info : Info) (dir : string) (w : World)
    (fi : FileInfo) : Prop :=
  Length fi = 0 -> native_name info dir fi ∉ denied w.

Definition with_disk (w : World) (d : gmap string (list byte)) : World :=
  mkWorld d (denied w) (next_fd w) (trace w).

(** A torrent with two zero-length entries, and a file system that refuses
    to create the file of the second. *)
Definition fi_z1 : FileInfo := mkFileInfo 0 ["z1"].
Definition fi_z2 : FileInfo := mkFileInfo 0 ["z2"].
Definition info_z : Info := mkInfo "t" [fi_z1; fi_a; fi_z2] 4 1.
Definition client_ex : fileClientImpl := mkClient "d" defaultPathMaker.
Definition w_refusing : World := mkWorld ∅ {["d/t/z2"]} 0 [].
Definition w_empty : World := mkWorld ∅ ∅ 0 [].

(** * Vocabulary of the further properties *)

(** ** The torrent as one byte sequence *)

(** The bytes of the entry [fi], as far as its file has them. *)
Definition entry_bytes (fs : fileTorrentImpl) (st : State) (fi : FileInfo) : list byte :=
  take (Z.to_nat (Length fi)) (file_content (os st) (fileInfoName fs fi)).

(** The files of the entries, laid out back to back. *)
Definition torrent_bytes (fs : fileTorrentImpl) (st : State) (files : list FileInfo)
  : list byte :=
  concat (map (entry_bytes fs st) files).

(** The file of every entry has at least the declared length. *)
Definition all_present (fs : fileTorrentImpl) (st : State) (files : list FileInfo) : Prop :=
  Forall (fun fi => Length fi <= Z.of_nat (length (file_content (os st) (fileInfoName fs fi))))
         files.

(** The files of the entries that hold bytes can be opened for reading. *)
Definition all_readable (fs : fileTorrentImpl) (st : State) (files : list FileInfo) : Prop :=
  Forall (fun fi => 0 < Length fi -> readable fs fi st) files.

(** Both files of the concrete torrent are on disk in full. *)
Definition st_full : State :=
  mkState (mkWorld {["d/t/a" := [Byte.x01; Byte.x02];
                     "d/t/b" := [Byte.x03; Byte.x04; Byte.x05] ]} ∅ 0 [])
          ∅ pc_ex.

(** ** One step of the write walk *)

(** The state after the write walk has opened the file of [fi] through the
    cache and written [data] at [off] into it. *)
Definition written (fs : fileTorrentImpl) (fi : FileInfo) (data : list byte)
    (off : Z) (st : State) : State :=
  let name := fileInfoName fs fi in
  let st2 := match handles st !! name with
             | Some _ => st
             | None => opened st name
             end in
  set_os st2
    (mkWorld (<[name := write_at (file_content (os st2) name) (Z.to_nat off) data]>
                (disk (os st2)))
             (denied (os st2)) (next_fd (os st2))
             (trace (os st2) ++ [OpWrite name off data])).


(** * Properties *)

(** ** 64-bit arithmetic without overflow *)

Lemma Int64_wrap_small x : Int64.in_range x -> Int64.wrap x = x.
Proof.
  unfold Int64.in_range, Int64.wrap, Int64.half, Int64.modulus. intros H.
  rewrite Z.mod_small by lia. lia.
Qed.

Lemma Int64_wrap_in_range x : Int64.in_range (Int64.wrap x).
Proof.
  unfold Int64.in_range, Int64.wrap, Int64.half, Int64.modulus.
  pose proof (Z.mod_pos_bound (x + 9223372036854775808) 18446744073709551616).
  lia.
Qed.

Lemma Int64_sub_small a b : Int64.in_range (a - b) -> Int64.sub a b = a - b.
Proof. apply Int64_wrap_small. Qed.

Lemma Int64_add_small a b : Int64.in_range (a + b) -> Int64.add a b = a + b.
Proof. apply Int64_wrap_small. Qed.

Global Opaque Int64.wrap.

(** ** How the state evolves *)

Lemma evolves_refl P st : evolves P st st.
Proof.
  do 5 (split; [by auto|]). exists nil. by rewrite app_nil_r.
Qed.

Lemma evolves_trans P st1 st2 st3 :
  evolves P st1 st2 -> evolves P st2 st3 -> evolves P st1 st3.
Proof.
  intros (Hd1 & Hc1 & Hh1 & Hi1 & He1 & ops1 & Ht1 & Hf1)
         (Hd2 & Hc2 & Hh2 & Hi2 & He2 & ops2 & Ht2 & Hf2).
  do 5 (split; [by (congruence || auto)|]).
  exists (ops1 ++ ops2). split.
  - by rewrite Ht2, Ht1, app_assoc.
  - by apply Forall_app.
Qed.

Lemma evolves_weaken (P Q : FileOp -> Prop) st st' :
  (forall op, P op -> Q op) -> evolves P st st' -> evolves Q st st'.
Proof.
  intros HPQ (Hd & Hc & Hh & Hi & He & ops & Ht & Hf).
  do 5 (split; [by auto|]). exists ops. split; [done|].
  eapply Forall_impl; eauto.
Qed.

(** ** The handle cache *)

Lemma set_os_id st : set_os st (os st) = st.
Proof. by destruct st. Qed.

(** The four ways [OpenFile] ends. *)
Lemma OpenFile_cases fs fi creatable st :
  let name := fileInfoName fs fi in
  (exists h, handles st !! name = Some h /\
             OpenFile fs fi creatable st = Done (inl h) st) \/
  (handles st !! name = None /\ disk (os st) !! name = None /\ creatable = false /\
   OpenFile fs fi creatable st = Done (inr EOF) st) \/
  (handles st !! name = None /\
   (is_Some (disk (os st) !! name) \/ creatable = true) /\
   name ∈ denied (os st) /\
   OpenFile fs fi creatable st = Done (inr (PathError "open" name)) st) \/
  (handles st !! name = None /\
   (is_Some (disk (os st) !! name) \/ creatable = true) /\
   (name ∉ denied (os st)) /\
   OpenFile fs fi creatable st
   = Done (inl (mkHandle (mkFile (next_fd (os st)) name) name)) (opened st name)).
Proof.
  intros name. unfold OpenFile. fold name.
  destruct (handles st !! name) as [h|] eqn:Hh; [left; eauto|right].
  unfold os_exists, os_OpenFile.
  destruct (disk (os st) !! name) as [c|] eqn:Hd; simpl.
  - right. destruct (decide (name ∈ denied (os st))).
    + left. rewrite set_os_id. eauto 10.
    + right. unfold opened. rewrite Hd. eauto 10.
  - destruct creatable; simpl.
    + right. destruct (decide (name ∈ denied (os st))).
      * left. rewrite set_os_id. eauto 10.
      * right. unfold opened. rewrite Hd. eauto 10.
    + left. eauto.
Qed.

Lemma file_content_opened st name k :
  file_content (os (opened st name)) k = file_content (os st) k.
Proof.
  unfold file_content, opened. simpl.
  destruct (disk (os st) !! name) eqn:Hd; [done|].
  destruct (decide (name = k)) as [->|Hne].
  - by rewrite lookup_insert_eq, Hd.
  - by rewrite lookup_insert_ne.
Qed.

Lemma cache_inv_opened st name :
  handles st !! name = None -> cache_inv st -> cache_inv (opened st name).
Proof.
  intros Hnone [Hwf Hinj]. split.
  - intros k h. unfold opened; simpl. rewrite lookup_insert.
    case_decide as Hk.
    + intros [= <-]. simpl. subst. repeat split; lia || done.
    + intros Hl. destruct (Hwf _ _ Hl) as (? & ? & ?). repeat split; auto; lia.
  - intros k1 k2 h1 h2. unfold opened; simpl. rewrite !lookup_insert.
    repeat case_decide; subst.
    + done.
    + intros [= <-] Hl. simpl. destruct (Hwf _ _ Hl) as (? & ? & ?). lia.
    + intros Hl [= <-]. simpl. destruct (Hwf _ _ Hl) as (? & ? & ?). lia.
    + apply Hinj.
Qed.

Lemma evolves_opened P st name :
  handles st !! name = None -> evolves P st (opened st name).
Proof.
  intros Hnone. unfold evolves. split; [done|]. split; [done|].
  split; [|split; [|split]].
  - intros k h Hl. simpl. rewrite lookup_insert_ne; [done|]. congruence.
  - by apply cache_inv_opened.
  - intros k Hk. simpl. destruct (disk (os st) !! name) eqn:Hd; [done|].
    rewrite lookup_insert. case_decide; eauto.
  - exists nil. simpl. by rewrite app_nil_r.
Qed.

(** [OpenFile] always returns, and what it leaves behind. *)
Lemma OpenFile_evolves P fs fi creatable st :
  exists r st', OpenFile fs fi creatable st = Done r st' /\ evolves P st st' /\
    (forall k, file_content (os st') k = file_content (os st) k) /\
    (creatable = false -> disk (os st') = disk (os st)) /\
    (forall h, r = inl h ->
       handles st' !! fileInfoName fs fi = Some h /\
       is_Some (disk (os st') !! fileInfoName fs fi)
       \/ handles st !! fileInfoName fs fi = Some h /\ st' = st).
Proof.
  destruct (OpenFile_cases fs fi creatable st)
    as [(h & Hh & ->)|[(Hh & Hd & Hc & ->)|[(Hh & Hd & Hden & ->)|(Hh & Hd & Hden & ->)]]].
  - do 2 eexists. split; [done|]. split; [apply evolves_refl|].
    repeat split; auto. intros h' [= <-]. auto.
  - do 2 eexists. split; [done|]. split; [apply evolves_refl|].
    repeat split; auto. intros h' [=].
  - do 2 eexists. split; [done|]. split; [apply evolves_refl|].
    repeat split; auto. intros h' [=].
  - do 2 eexists. split; [done|]. split; [by apply evolves_opened|].
    split; [apply file_content_opened|]. split.
    + intros ->. destruct Hd as [[c Hc]|]; [|done].
      unfold opened; simpl. by rewrite Hc.
    + intros h' [= <-]. left. unfold opened; simpl. split.
      * by rewrite lookup_insert_eq.
      * destruct (disk (os st) !! fileInfoName fs fi) eqn:E; [rewrite E; eauto|].
        rewrite lookup_insert_eq. eauto.
Qed.

(** ** File-local reads *)

Lemma take_drop_short {A} (l : list A) (n k : nat) :
  (length (take n l) < n)%nat -> drop (length (take n l)) l = [] /\ take k (drop (length (take n l)) l) = [].
Proof.
  rewrite length_take. intros H.
  assert (length l <= n `min` length l)%nat by lia.
  rewrite (drop_ge l) by lia. by rewrite take_nil.
Qed.

Lemma readFileAt_loop_spec h len_fi fuel : forall blen off acc st,
  (blen <= fuel)%nat -> 0 <= off -> off + Z.of_nat blen <= len_fi ->
  len_fi < Int64.half ->
  let d := take blen (drop (Z.to_nat off) (file_content (os st) (fname (f h)))) in
  exists st',
    readFileAt_loop fuel h len_fi blen off acc st
    = Done (acc ++ d, if (length d <? blen)%nat then Some EOF else None) st' /\
    evolves (within (fname (f h)) len_fi) st st' /\
    disk (os st') = disk (os st) /\ handles st' = handles st.
Proof.
  induction fuel as [|fuel IH]; intros blen off acc st Hfuel Hoff Hend Hlen d.
  - assert (blen = 0%nat) as -> by lia. subst d. simpl.
    rewrite andb_false_r, app_nil_r. unfold ret. exists st.
    split; [done|]. split; [apply evolves_refl|done].
  - simpl. destruct ((off <? len_fi) && negb (blen =? 0)%nat) eqn:Hcond.
    + apply andb_true_iff in Hcond as [Hlt Hne].
      apply Z.ltb_lt in Hlt. apply negb_true_iff, Nat.eqb_neq in Hne.
      unfold bind, lift_os, File_ReadAt.
      destruct (off <? 0) eqn:Hneg; [apply Z.ltb_lt in Hneg; lia|].
      fold d. set (w1 := mkWorld _ _ _ _). set (st1 := set_os st w1).
      assert (Hev1 : evolves (within (fname (f h)) len_fi) st st1).
      { unfold evolves, st1, w1; simpl. do 3 (split; [done|]). split.
        - intros [Hwf Hinj]. split; [|exact Hinj]. exact Hwf.
        - split; [done|]. eexists. split; [done|].
          apply Forall_singleton. simpl. split; [done|lia]. }
      assert (Hle : (length d <= blen)%nat).
      { subst d. rewrite length_take. lia. }
      destruct (blen <? length d)%nat eqn:Hb; [apply Nat.ltb_lt in Hb; lia|].
      destruct (length d =? 0)%nat eqn:Hz.
      * exists st1. unfold ret. split; [done|]. split; [done|]. done.
      * apply Nat.eqb_neq in Hz.
        rewrite Int64_add_small by (unfold Int64.in_range, Int64.half in *; lia).
        destruct (IH (blen - length d)%nat (off + Z.of_nat (length d)) (acc ++ d) st1)
          as (st' & Hrun & Hev & Hdisk & Hhan); try lia.
        exists st'. rewrite Hrun. split; [|split; [|split]].
        -- f_equal. unfold st1, w1, file_content; simpl. fold (file_content (os st) (fname (f h))).
           replace (Z.to_nat (off + Z.of_nat (length d))) with (Z.to_nat off + length d)%nat by lia.
           rewrite <- drop_drop.
           destruct (decide (length d = blen)) as [Heq|Hneq].
           ++ rewrite Heq, Nat.sub_diag, take_0, app_nil_r. simpl.
              by rewrite Nat.ltb_irrefl.
           ++ assert (Hshort : (length d < blen)%nat) by lia.
              destruct (take_drop_short (drop (Z.to_nat off) (file_content (os st) (fname (f h))))
                          blen (blen - length d)%nat) as [_ Hnil]; [by fold d|].
              fold d in Hnil. rewrite Hnil, app_nil_r. simpl.
              replace (0 <? blen - length d)%nat with true by (symmetry; apply Nat.ltb_lt; lia).
              replace (length d <? blen)%nat with true by (symmetry; apply Nat.ltb_lt; lia).
              done.
        -- eapply evolves_trans; eauto.
        -- by rewrite Hdisk.
        -- by rewrite Hhan.
    + assert (blen = 0%nat) as ->.
      { apply andb_false_iff in Hcond as [Hc|Hc].
        - apply Z.ltb_ge in Hc. lia.
        - apply negb_false_iff, Nat.eqb_eq in Hc. done. }
      subst d. simpl. rewrite app_nil_r. exists st. unfold ret.
      split; [done|]. split; [apply evolves_refl|done].
Qed.

Lemma in_range_sub_entry (len_fi off : Z) :
  0 <= off < len_fi -> len_fi < Int64.half -> Int64.in_range (len_fi - off).
Proof. unfold Int64.in_range, Int64.half. lia. Qed.

Lemma readFileAt_clamped fs fi h blen off st0 st :
  fname (f h) = fileInfoName fs fi ->
  0 <= off < Length fi -> Length fi < Int64.half ->
  file_content (os st) (fileInfoName fs fi) = file_content (os st0) (fileInfoName fs fi) ->
  let m := (blen `min` Z.to_nat (Length fi - off))%nat in
  let d := take m (drop (Z.to_nat off) (file_content (os st0) (fileInfoName fs fi))) in
  exists st',
    (let d := Int64.sub (Length fi) off in
     if Z.of_nat blen >? d then
       if d <? 0 then panic SliceBounds
       else readFileAt_loop (S (Z.to_nat d)) h (Length fi) (Z.to_nat d) off []
     else readFileAt_loop (S blen) h (Length fi) blen off []) st
    = Done (d, if (length d <? m)%nat then Some EOF else None) st' /\
    evolves (within_entry fs fi) st st' /\
    disk (os st') = disk (os st) /\ handles st' = handles st.
Proof.
  intros Hname Hoff Hlen Hc m d. cbv zeta.
  rewrite Int64_sub_small by (by apply in_range_sub_entry).
  unfold within_entry. rewrite <- Hname.
  destruct (Z.of_nat blen >? Length fi - off) eqn:Hgt.
  - apply Z.gtb_lt in Hgt.
    destruct (Length fi - off <? 0) eqn:Hneg; [apply Z.ltb_lt in Hneg; lia|].
    destruct (readFileAt_loop_spec h (Length fi) (S (Z.to_nat (Length fi - off)))
                (Z.to_nat (Length fi - off)) off [] st)
      as (st' & Hrun & Hrest); try lia.
    exists st'. split; [|exact Hrest].
    rewrite Hrun. subst d m. rewrite Hname, Hc.
    by replace (blen `min` Z.to_nat (Length fi - off))%nat
      with (Z.to_nat (Length fi - off)) by lia.
  - rewrite Z.gtb_ltb in Hgt. apply Z.ltb_ge in Hgt.
    destruct (readFileAt_loop_spec h (Length fi) (S blen) blen off [] st)
      as (st' & Hrun & Hrest); try lia.
    exists st'. split; [|exact Hrest].
    rewrite Hrun. subst d m. rewrite Hname, Hc.
    by replace (blen `min` Z.to_nat (Length fi - off))%nat with blen by lia.
Qed.

(** [readFileAt] on an entry that contains the offset: the clamped range of
    the file as far as the file has it, or the error of the failed open. *)
Lemma readFileAt_spec fs fi blen off st :
  cache_inv st -> 0 <= off < Length fi -> Length fi < Int64.half ->
  let name := fileInfoName fs fi in
  let m := (blen `min` Z.to_nat (Length fi - off))%nat in
  let d := take m (drop (Z.to_nat off) (file_content (os st) name)) in
  (readable fs fi st /\
   exists st',
     readFileAt fs fi blen off st
     = Done (d, if (length d <? m)%nat then Some EOF else None) st' /\
     evolves (within_entry fs fi) st st' /\
     disk (os st') = disk (os st) /\ is_Some (handles st' !! name))
  \/ (~ readable fs fi st /\ handles st !! name = None /\
      readFileAt fs fi blen off st = Done ([], Some (open_error st name)) st).
Proof.
  intros Hinv Hoff Hlen. cbv zeta. unfold readFileAt, bind, readable.
  destruct (OpenFile_cases fs fi false st)
    as [(h & Hh & ->)|[(Hh & Hd & _ & ->)|[(Hh & Hd & Hden & ->)|(Hh & Hd & Hden & ->)]]];
    set (name := fileInfoName fs fi) in *.
  - left. split; [left; eauto|].
    destruct Hinv as [Hwf _]. destruct (Hwf _ _ Hh) as (_ & Hname & _).
    destruct (readFileAt_clamped fs fi h blen off st st Hname Hoff Hlen eq_refl)
      as (st' & Hrun & Hev & Hdisk & Hhan).
    exists st'. split; [exact Hrun|]. split; [done|]. split; [done|].
    rewrite Hhan. eauto.
  - right. split; [|split; [done|]].
    + intros [[h Hs]|[[c Hs] _]]; congruence.
    + unfold ret, open_error, os_exists. by rewrite Hd.
  - right. destruct Hd as [[c Hd]|?]; [|done]. split; [|split; [done|]].
    + intros [[h Hs]|[_ Hs]]; [congruence|done].
    + unfold ret, open_error, os_exists. by rewrite Hd.
  - left. destruct Hd as [Hd|?]; [|done]. split; [right; done|].
    destruct (readFileAt_clamped fs fi (mkHandle (mkFile (next_fd (os st)) name) name)
                blen off st (opened st name) eq_refl Hoff Hlen
                (file_content_opened st name name))
      as (st' & Hrun & Hev & Hdisk & Hhan).
    exists st'. split; [exact Hrun|]. split; [|split].
    + eapply evolves_trans; [by apply evolves_opened|done].
    + rewrite Hdisk. unfold opened; simpl. destruct Hd as [c Hd]. by rewrite Hd.
    + rewrite Hhan. unfold opened; simpl. rewrite lookup_insert_eq. eauto.
Qed.

(** ** The read walk *)

Lemma ReadAt_file_spec fs fi fuel : forall blen off acc st,
  (blen < fuel)%nat -> cache_inv st -> 0 <= off ->
  0 <= Length fi < Int64.half ->
  exists ctl st',
    ReadAt_file fuel fs fi blen off acc st = Done ctl st' /\
    evolves (within_entry fs fi) st st' /\
    disk (os st') = disk (os st) /\
    read_entry_result fs fi blen off acc st ctl.
Proof.
  induction fuel as [|fuel IH]; intros blen off acc st Hfuel Hinv Hoff Hlen; [lia|].
  simpl. destruct (off <? Length fi) eqn:Hlt.
  2:{ apply Z.ltb_ge in Hlt. exists (Next acc blen off), st. unfold ret.
      split; [done|]. split; [apply evolves_refl|]. split; [done|].
      left. done. }
  apply Z.ltb_lt in Hlt. unfold bind.
  destruct (readFileAt_spec fs fi blen off st Hinv ltac:(lia) ltac:(lia)) as
    [(Hrd & st1 & Hrun & Hev1 & Hdisk1 & Hcached)|(Hnr & Hnone & Hrun)];
    rewrite Hrun; clear Hrun.
  - set (name := fileInfoName fs fi) in *.
    set (m := (blen `min` Z.to_nat (Length fi - off))%nat) in *.
    set (d := take m (drop (Z.to_nat off) (file_content (os st) name))) in *.
    assert (Hdm : (length d <= m)%nat) by (subst d; rewrite length_take; lia).
    destruct (blen <? length d)%nat eqn:Hb; [apply Nat.ltb_lt in Hb; lia|].
    destruct (blen - length d =? 0)%nat eqn:Hfull.
    { apply Nat.eqb_eq in Hfull. exists (Return (acc ++ d) None), st1.
      unfold ret. split; [done|]. split; [done|]. split; [done|].
      right; left. split; [done|]. split; [done|]. left. fold name m d.
      split; [lia|done]. }
    apply Nat.eqb_neq in Hfull.
    destruct (length d =? 0)%nat eqn:Hz; simpl.
    + apply Nat.eqb_eq in Hz.
      replace (length d <? m)%nat with true by (symmetry; apply Nat.ltb_lt; lia).
      exists (Return (acc ++ d) (Some ErrUnexpectedEOF)), st1. unfold ret.
      split; [done|]. split; [done|]. split; [done|].
      right; left. split; [done|]. split; [done|]. right; right. fold name m d.
      split; [lia|]. split; [lia|done].
    + apply Nat.eqb_neq in Hz.
      rewrite Int64_add_small by (unfold Int64.in_range, Int64.half in *; lia).
      destruct (IH (blen - length d)%nat (off + Z.of_nat (length d)) (acc ++ d) st1)
        as (ctl & st' & Hrun & Hev & Hdisk & Hres); try lia.
      { by apply Hev1. }
      exists ctl, st'. split; [done|]. split; [by eapply evolves_trans|].
      split; [congruence|].
      right; left. split; [done|]. split; [done|]. fold name m d.
      destruct Hres as [(Hge & ->)|[(Hlt' & _ & Hres)|(_ & Hnr & _)]].
      * right; left. split; [lia|]. split; [lia|].
        f_equal. lia.
      * right; right. split; [lia|]. split; [lia|].
        assert (Hshort : (length d < m)%nat) by lia.
        unfold file_content in Hres. rewrite Hdisk1 in Hres.
        fold (file_content (os st) (fileInfoName fs fi)) in Hres. fold name in Hres.
        replace (Z.to_nat (off + Z.of_nat (length d)))
          with (Z.to_nat off + length d)%nat in Hres by lia.
        rewrite <- drop_drop in Hres.
        destruct (take_drop_short (drop (Z.to_nat off) (file_content (os st) name)) m
           ((blen - length d) `min` Z.to_nat (Length fi - (off + Z.of_nat (length d))))%nat)
          as [_ Hnil]; [by fold d|].
        fold d in Hnil. rewrite Hnil in Hres. simpl in Hres.
        rewrite app_nil_r in Hres.
        destruct Hres as [(Hc & _)|[(_ & Hc & _)|(_ & _ & ->)]]; [lia|lia|done].
      * exfalso. apply Hnr. left. done.
  - destruct (blen <? length (@nil byte))%nat eqn:Hb; [apply Nat.ltb_lt in Hb; simpl in Hb; lia|].
    simpl. rewrite Nat.sub_0_r, app_nil_r.
    destruct (blen =? 0)%nat eqn:Hz.
    + apply Nat.eqb_eq in Hz. exists (Return acc None), st. unfold ret.
      split; [done|]. split; [apply evolves_refl|]. split; [done|].
      right; right. split; [done|]. split; [done|]. left. done.
    + apply Nat.eqb_neq in Hz.
      exists (Return acc (premature (Some (open_error st (fileInfoName fs fi))))), st.
      unfold ret. split; [done|]. split; [apply evolves_refl|]. split; [done|].
      right; right. split; [done|]. split; [done|]. right. done.
Qed.

Lemma TotalLengthOf_nonneg files :
  Forall (fun fi => 0 <= Length fi) files -> 0 <= TotalLengthOf files.
Proof.
  induction 1 as [|fi files Hfi _ IH]; simpl; lia.
Qed.

Lemma files_ok_cons fi files :
  files_ok (fi :: files) ->
  0 <= Length fi < Int64.half /\ files_ok files /\ 0 <= TotalLengthOf files.
Proof.
  intros [Hall Htot]. inversion Hall as [|? ? Hfi Hrest]; subst.
  pose proof (TotalLengthOf_nonneg _ Hrest). simpl in Htot.
  unfold files_ok. repeat split; auto; lia.
Qed.

Lemma within_files_head fs fi rest op :
  within_entry fs fi op -> within_files fs (fi :: rest) op.
Proof. intros H. exists fi. split; [left|done]. Qed.

Lemma within_files_tail fs fi rest op :
  within_files fs rest op -> within_files fs (fi :: rest) op.
Proof. intros (fj & Hin & H). exists fj. split; [by right|done]. Qed.

Lemma ReadAt_files_spec fs files : forall blen off acc st,
  cache_inv st -> 0 <= off < Int64.half -> files_ok files -> (0 < blen)%nat ->
  exists d err st',
    ReadAt_files fs files blen off acc st = Done (acc ++ d, err) st' /\
    evolves (within_files fs files) st st' /\
    disk (os st') = disk (os st) /\
    read_outcome fs files st blen off d err.
Proof.
  induction files as [|fi rest IH]; intros blen off acc st Hinv Hoff Hok Hblen.
  - exists [], (Some EOF), st. simpl. unfold ret. rewrite app_nil_r.
    split; [done|]. split; [apply evolves_refl|]. split; [done|].
    right; left. simpl. split; [lia|]. split; [lia|done].
  - destruct (files_ok_cons _ _ Hok) as (Hfi & Hok' & Htot').
    cbn [ReadAt_files]. unfold bind.
    destruct (ReadAt_file_spec fs fi (S blen) blen off acc st)
      as (ctl & st1 & Hrun & Hev1 & Hdisk1 & Hres); try lia; [done|].
    rewrite Hrun. clear Hrun.
    assert (Hev1' : evolves (within_files fs (fi :: rest)) st st1).
    { eapply evolves_weaken; [|exact Hev1]. apply within_files_head. }
    assert (Hinv1 : cache_inv st1) by (by apply Hev1).
    assert (Hden1 : denied (os st1) = denied (os st)) by apply Hev1.
    unfold read_entry_result in Hres.
    set (name := fileInfoName fs fi) in *.
    set (m := (blen `min` Z.to_nat (Length fi - off))%nat) in *.
    set (d1 := take m (drop (Z.to_nat off) (file_content (os st) name))) in *.
    destruct Hres as [(Hge & ->)|[(Hlt & Hrd & Hres)|(Hlt & Hnr & Hres)]].
    + (* the entry lies before the offset *)
      rewrite Int64_sub_small by (unfold Int64.in_range, Int64.half in *; lia).
      destruct (IH blen (off - Length fi) acc st1) as (d & err & st' & Hrun & Hev & Hdisk & Hout);
        try done; [lia|].
      exists d, err, st'. split; [done|]. split.
      { eapply evolves_trans; [exact Hev1'|].
        eapply evolves_weaken; [|exact Hev]. apply within_files_tail. }
      split; [congruence|].
      unfold read_outcome in *. simpl.
      destruct Hout as [(? & ? & ?)|[(? & ? & ?)|(? & ? & Herr)]].
      * left. repeat split; try done; lia.
      * right; left. split; [lia|]. split; [lia|done].
      * right; right. split; [done|]. split; [lia|].
        destruct Herr as [?|(fj & Hin & Hd & ?)]; [by left|right].
        exists fj. split; [by right|]. split; [congruence|done].
    + destruct Hres as [(Hfull & ->)|[(Hshort & Hend & ->)|(Hshort & Hmid & ->)]].
      * exists d1, None, st1. unfold ret. split; [done|]. split; [done|].
        split; [done|]. left. simpl. split; [done|]. split; [|done].
        assert (length d1 <= m)%nat by (subst d1; rewrite length_take; lia).
        lia.
      * replace (Int64.sub (Length fi) (Length fi)) with 0.
        2:{ rewrite Int64_sub_small; unfold Int64.in_range, Int64.half; lia. }
        destruct (IH (blen - length d1)%nat 0 (acc ++ d1) st1)
          as (d & err & st' & Hrun & Hev & Hdisk & Hout); try done;
          try (unfold Int64.half; lia).
        exists (d1 ++ d), err, st'. rewrite app_assoc. split; [done|]. split.
        { eapply evolves_trans; [exact Hev1'|].
          eapply evolves_weaken; [|exact Hev]. apply within_files_tail. }
        split; [congruence|].
        unfold read_outcome in *. simpl. rewrite length_app.
        destruct Hout as [(? & ? & ?)|[(? & ? & ?)|(? & ? & Herr)]].
        -- left. split; [lia|]. split; [lia|done].
        -- right; left. split; [lia|]. split; [lia|done].
        -- right; right. split; [lia|]. split; [lia|].
           destruct Herr as [?|(fj & Hin & Hd & ?)]; [by left|right].
           exists fj. split; [by right|]. split; [congruence|done].
      * exists d1, (Some ErrUnexpectedEOF), st1. unfold ret. split; [done|].
        split; [done|]. split; [done|].
        right; right. simpl. split; [done|]. split; [lia|]. left. done.
    + destruct Hres as [(Hz & _)|(_ & ->)]; [lia|].
      exists [], (premature (Some (open_error st name))), st1.
      unfold ret. rewrite app_nil_r. split; [done|]. split; [done|].
      split; [done|].
      right; right. unfold open_error, os_exists.
      destruct (disk (os st) !! name) as [c|] eqn:Hd; simpl;
        (split; [lia|]); (split; [lia|]); [right|left; done].
      exists fi. split; [by left|]. split; [|done].
      destruct (decide (name ∈ denied (os st))) as [Hin|Hnin]; [done|].
      exfalso. apply Hnr. right. split; [by exists c|done].
Qed.

(** ** The write walk *)

Lemma wrote_after_open fs fi h data off st0 st :
  fname (f h) = fileInfoName fs fi ->
  0 <= off -> off + Z.of_nat (length data) <= Length fi ->
  evolves (within_entry fs fi) st0 st ->
  trace (os st) = trace (os st0) ->
  file_content (os st) (fileInfoName fs fi) = file_content (os st0) (fileInfoName fs fi) ->
  <[fileInfoName fs fi := write_at (file_content (os st0) (fileInfoName fs fi)) (Z.to_nat off) data]> (disk (os st))
  = <[fileInfoName fs fi := write_at (file_content (os st0) (fileInfoName fs fi)) (Z.to_nat off) data]> (disk (os st0)) ->
  is_Some (handles st !! fileInfoName fs fi) ->
  exists st1,
    lift_os (fun w => File_WriteAt w (f h) data off) st
    = Done (length data, None) st1 /\
    wrote fs fi data off st0 st1.
Proof.
  intros Hname Hoff Hend Hev Htr Hc Hdisk Hcached.
  unfold lift_os, File_WriteAt.
  destruct (off <? 0) eqn:Hneg; [apply Z.ltb_lt in Hneg; lia|].
  eexists. split; [done|]. unfold wrote. rewrite Hname. simpl.
  split; [|split; [|split]].
  - eapply evolves_trans; [exact Hev|].
    unfold evolves; simpl. do 3 (split; [done|]). split.
    { intros [Hwf Hinj]. split; [exact Hwf|exact Hinj]. }
    split.
    { intros k Hk. rewrite lookup_insert. case_decide; eauto. }
    eexists. split; [done|]. apply Forall_singleton. simpl. done.
  - by rewrite Htr.
  - by rewrite Hc, Hdisk.
  - done.
Qed.

Lemma bind_Done {A B} (m : M A) (k : A -> M B) st a st' :
  m st = Done a st' -> bind m k st = k a st'.
Proof. unfold bind. by intros ->. Qed.

(** One step of the write walk at an entry that contains the offset. *)
Lemma WriteAt_entry fs fi rest p off n st :
  cache_inv st -> 0 <= off < Length fi -> Length fi < Int64.half ->
  writable fs fi st ->
  let n1 := (length p `min` Z.to_nat (Length fi - off))%nat in
  exists st1,
    wrote fs fi (take n1 p) off st st1 /\
    WriteAt_files fs (fi :: rest) p off n st
    = if (length p <=? n1)%nat then Done ((n + n1)%nat, None) st1
      else WriteAt_files fs rest (drop n1 p) 0 (n + n1)%nat st1.
Proof.
  intros Hinv Hoff Hlen Hw n1. cbn [WriteAt_files].
  destruct (off >=? Length fi) eqn:Hge; [rewrite Z.geb_leb in Hge; apply Z.leb_le in Hge; lia|].
  rewrite Int64_sub_small by (by apply in_range_sub_entry).
  set (n1z := if Z.of_nat (length p) >? Length fi - off then Length fi - off
              else Z.of_nat (length p)).
  assert (Hn1 : Z.to_nat n1z = n1 /\ 0 <= n1z).
  { subst n1z n1. destruct (Z.of_nat (length p) >? Length fi - off) eqn:Hgt.
    - apply Z.gtb_lt in Hgt. lia.
    - rewrite Z.gtb_ltb in Hgt. apply Z.ltb_ge in Hgt. lia. }
  destruct Hn1 as [Hn1 Hn1pos].
  assert (Hlen1 : length (take n1 p) = n1) by (rewrite length_take; lia).
  assert (Hgo : forall h st2,
    OpenFile fs fi true st = Done (inl h) st2 ->
    fname (f h) = fileInfoName fs fi ->
    evolves (within_entry fs fi) st st2 ->
    trace (os st2) = trace (os st) ->
    file_content (os st2) (fileInfoName fs fi) = file_content (os st) (fileInfoName fs fi) ->
    <[fileInfoName fs fi := write_at (file_content (os st) (fileInfoName fs fi)) (Z.to_nat off) (take n1 p)]> (disk (os st2))
    = <[fileInfoName fs fi := write_at (file_content (os st) (fileInfoName fs fi)) (Z.to_nat off) (take n1 p)]> (disk (os st)) ->
    is_Some (handles st2 !! fileInfoName fs fi) ->
    exists st1, wrote fs fi (take n1 p) off st st1 /\
      bind (OpenFile fs fi true)
        (fun r => match r with
                  | inl h =>
                      if n1z <? 0 then panic SliceBounds
                      else
                        let* (n1', err) :=
                          lift_os (fun w => File_WriteAt w (f h) (take (Z.to_nat n1z) p) off) in
                        match err with
                        | Some e => ret (n, Some e)
                        | None =>
                            if (length (drop n1' p) =? 0)%nat then ret ((n + n1')%nat, None)
                            else WriteAt_files fs rest (drop n1' p) 0 (n + n1')%nat
                        end
                  | inr err => ret (n, Some err)
                  end) st
      = if (length p <=? n1)%nat then Done ((n + n1)%nat, None) st1
        else WriteAt_files fs rest (drop n1 p) 0 (n + n1)%nat st1).
  { intros h st2 Hopen Hname Hev Htr Hc Hd Hcached.
    rewrite (bind_Done _ _ _ _ _ Hopen).
    destruct (n1z <? 0) eqn:Hneg; [apply Z.ltb_lt in Hneg; lia|].
    rewrite Hn1.
    destruct (wrote_after_open fs fi h (take n1 p) off st st2)
      as (st1 & Hrun & Hwrote); try done; try lia.
    exists st1. split; [done|].
    rewrite (bind_Done _ _ _ _ _ Hrun). rewrite Hlen1, length_drop.
    destruct (length p <=? n1)%nat eqn:Hle.
    - apply Nat.leb_le in Hle.
      replace (length p - n1 =? 0)%nat with true by (symmetry; apply Nat.eqb_eq; lia).
      done.
    - apply Nat.leb_gt in Hle.
      replace (length p - n1 =? 0)%nat with false by (symmetry; apply Nat.eqb_neq; lia).
      done. }
  destruct (OpenFile_cases fs fi true st)
    as [(h & Hh & Hopen)|[(Hh & Hd & ? & _)|[(Hh & Hd & Hden & Hopen)|(Hh & Hd & Hden & Hopen)]]];
    [|done| |].
  - destruct Hinv as [Hwf _]. destruct (Hwf _ _ Hh) as (_ & Hname & _).
    apply (Hgo h st Hopen Hname); [apply evolves_refl|done|done|done|eauto].
  - exfalso. destruct Hw as [[h Hs]|Hs]; [congruence|done].
  - eapply Hgo; [exact Hopen|done|by apply evolves_opened|done|apply file_content_opened| |].
    + unfold opened; simpl.
      destruct (disk (os st) !! fileInfoName fs fi); [done|].
      by rewrite insert_insert_eq.
    + unfold opened; simpl. rewrite lookup_insert_eq. eauto.
Qed.

Lemma WriteAt_skip fs fi rest p off n st :
  Length fi <= off -> Int64.in_range (off - Length fi) ->
  WriteAt_files fs (fi :: rest) p off n st
  = WriteAt_files fs rest p (off - Length fi) n st.
Proof.
  intros Hge Hr. cbn [WriteAt_files].
  destruct (off >=? Length fi) eqn:E.
  - by rewrite Int64_sub_small.
  - rewrite Z.geb_leb in E. apply Z.leb_gt in E. lia.
Qed.


Lemma readable_evolves P fs fi st st' :
  evolves P st st' -> readable fs fi st -> readable fs fi st'.
Proof.
  intros (Hden & _ & Hh & _ & He & _) [[h Hs]|[Hex Hn]].
  - left. exists h. by apply Hh.
  - right. split; [by apply He|by rewrite Hden].
Qed.


(** An entry whose file can be neither found in the cache nor opened stops
    the write walk with the error of the open. *)
Lemma WriteAt_unwritable fs fi rest p off n st :
  off < Length fi -> ~ writable fs fi st ->
  WriteAt_files fs (fi :: rest) p off n st
  = Done (n, Some (PathError "open" (fileInfoName fs fi))) st.
Proof.
  intros Hlt Hnw. cbn [WriteAt_files].
  destruct (off >=? Length fi) eqn:E;
    [rewrite Z.geb_leb in E; apply Z.leb_le in E; lia|].
  destruct (OpenFile_cases fs fi true st)
    as [(h & Hh & Hopen)|[(Hh & Hd & ? & _)|[(Hh & Hd & Hden & Hopen)|(Hh & Hd & Hden & Hopen)]]].
  - exfalso. apply Hnw. left. eauto.
  - done.
  - by rewrite (bind_Done _ _ _ _ _ Hopen).
  - exfalso. apply Hnw. by right.
Qed.

Lemma writable_dec fs fi st : writable fs fi st \/ ~ writable fs fi st.
Proof.
  unfold writable.
  destruct (handles st !! fileInfoName fs fi) as [h|] eqn:Hh; [left; left; eauto|].
  destruct (decide (fileInfoName fs fi ∈ denied (os st))) as [Hin|Hnin].
  - right. intros [[h Hs]|Hn]; [congruence|done].
  - left. by right.
Qed.

(** Every write, successful or not, returns, and issues file-local
    operations inside the entries only. *)
Lemma WriteAt_files_evolves fs files : forall p off n st,
  cache_inv st -> 0 <= off < Int64.half -> files_ok files ->
  exists r st',
    WriteAt_files fs files p off n st = Done r st' /\
    evolves (within_files fs files) st st'.
Proof.
  induction files as [|fi rest IH]; intros p off n st Hinv Hoff Hok.
  - do 2 eexists. split; [done|apply evolves_refl].
  - destruct (files_ok_cons _ _ Hok) as (Hfi & Hok' & Htot').
    destruct (Z_le_gt_dec (Length fi) off) as [Hge|Hlt].
    + rewrite WriteAt_skip by (unfold Int64.in_range, Int64.half in *; lia).
      destruct (IH p (off - Length fi) n st) as (r & st' & Hrun & Hev); try done; [lia|].
      exists r, st'. split; [done|].
      eapply evolves_weaken; [|exact Hev]. apply within_files_tail.
    + destruct (writable_dec fs fi st) as [Hw|Hnw].
      2:{ rewrite WriteAt_unwritable by (done || lia).
          do 2 eexists. split; [done|apply evolves_refl]. }
      destruct (WriteAt_entry fs fi rest p off n st) as (st1 & Hwrote & Hrun);
        try done; [lia|lia|].
      rewrite Hrun. clear Hrun. destruct Hwrote as (Hev1 & _).
      assert (Hev1' : evolves (within_files fs (fi :: rest)) st st1).
      { eapply evolves_weaken; [|exact Hev1]. apply within_files_head. }
      destruct (_ <=? _)%nat.
      * do 2 eexists. split; [done|done].
      * assert (Hinv1 : cache_inv st1) by (by apply Hev1).
        assert (H0 : 0 <= 0 < Int64.half) by (unfold Int64.half; lia).
        destruct (IH (drop (length p `min` Z.to_nat (Length fi - off)) p) 0
                     (n + length p `min` Z.to_nat (Length fi - off))%nat st1 Hinv1 H0 Hok')
          as (r & st' & Hrun & Hev).
        exists r, st'. split; [done|].
        eapply evolves_trans; [exact Hev1'|].
        eapply evolves_weaken; [|exact Hev]. apply within_files_tail.
Qed.

(** Every read returns: the loops' fuel is never used up and no slice
    expression is out of range. *)
Lemma ReadAt_files_evolves fs files : forall blen off acc st,
  cache_inv st -> 0 <= off < Int64.half -> files_ok files ->
  exists r st',
    ReadAt_files fs files blen off acc st = Done r st' /\
    evolves (within_files fs files) st st' /\
    disk (os st') = disk (os st).
Proof.
  induction files as [|fi rest IH]; intros blen off acc st Hinv Hoff Hok.
  - do 2 eexists. split; [done|]. split; [apply evolves_refl|done].
  - destruct (files_ok_cons _ _ Hok) as (Hfi & Hok' & Htot').
    cbn [ReadAt_files].
    destruct (ReadAt_file_spec fs fi (S blen) blen off acc st)
      as (ctl & st1 & Hrun & Hev1 & Hdisk1 & Hres); try lia; [done|].
    rewrite (bind_Done _ _ _ _ _ Hrun). clear Hrun.
    assert (Hev1' : evolves (within_files fs (fi :: rest)) st st1).
    { eapply evolves_weaken; [|exact Hev1]. apply within_files_head. }
    assert (Hinv1 : cache_inv st1) by (by apply Hev1).
    destruct ctl as [data err|data blen' off'].
    + do 2 eexists. split; [done|]. split; done.
    + assert (Hoff' : 0 <= off' - Length fi < Int64.half /\ Int64.in_range (off' - Length fi)).
      { unfold Int64.in_range, Int64.half in *.
        destruct Hres as [(Hge & Heq)|[(Hlt & _ & Hres)|(Hlt & _ & Hres)]].
        - injection Heq as ? ? ?. subst. lia.
        - destruct Hres as [(_ & Heq)|[(_ & _ & Heq)|(_ & _ & Heq)]]; try done.
          injection Heq as ? ? ?. subst. lia.
        - destruct Hres as [(_ & Heq)|(_ & Heq)]; done. }
      destruct Hoff' as [Hoff' Hr]. rewrite Int64_sub_small by done.
      destruct (IH blen' (off' - Length fi) data st1 Hinv1 Hoff' Hok')
        as (r & st' & Hrun & Hev & Hdisk).
      exists r, st'. split; [done|]. split; [|congruence].
      eapply evolves_trans; [exact Hev1'|].
      eapply evolves_weaken; [|exact Hev]. apply within_files_tail.
Qed.



(** * The claims *)

(** ** Clamping (C6) *)

(** C6. Every file-local read and every file-local write that the extent
    translator issues, for any buffer and any offset, lies inside
    [[0, entry.length)] of a file entry: no operation extends past the
    declared length of the entry it is issued for. *)
Theorem file_local_ops_clamped fs st :
  cache_inv st -> files_ok (UpvertedFiles (info fs)) ->
  (forall blen off, 0 <= off < Int64.half ->
     exists r st' ops,
       ReadAt fs blen off st = Done r st' /\
       trace (os st') = trace (os st) ++ ops /\
       Forall (within_files fs (UpvertedFiles (info fs))) ops) /\
  (forall p off, 0 <= off < Int64.half ->
     exists r st' ops,
       WriteAt fs p off st = Done r st' /\
       trace (os st') = trace (os st) ++ ops /\
       Forall (within_files fs (UpvertedFiles (info fs))) ops).
Proof.
  intros Hinv Hok. split.
  - intros blen off Hoff. unfold ReadAt.
    destruct (ReadAt_files_evolves fs (UpvertedFiles (info fs)) blen off [] st Hinv Hoff Hok)
      as (r & st' & Hrun & Hev & _).
    destruct Hev as (_ & _ & _ & _ & _ & ops & Htr & Hall).
    exists r, st', ops. done.
  - intros p off Hoff. unfold WriteAt.
    destruct (WriteAt_files_evolves fs (UpvertedFiles (info fs)) p off 0%nat st Hinv Hoff Hok)
      as (r & st' & Hrun & Hev).
    destruct Hev as (_ & _ & _ & _ & _ & ops & Htr & Hall).
    exists r, st', ops. done.
Qed.

(** ** Writes past the end (C10) *)


(** ** Boundary splitting (C7) *)

Lemma TotalLengthOf_cons fi files :
  TotalLengthOf (fi :: files) = Length fi + TotalLengthOf files.
Proof. done. Qed.



(** ** The kinds of end of a read (C3) *)

(** C3. For every offset (a file position, so not negative) and every
    non-empty buffer, [ReadAt] returns, and: its error is nil exactly when
    the buffer was filled; when it stops short with the file entries
    exhausted it returns [io.EOF], and then, if the read started inside the
    torrent, exactly at the end of the last entry; a read that starts at or
    past the total length returns no bytes and [io.EOF]; when it stops
    short inside the declared lengths, because a file gave no byte there,
    it returns [io.ErrUnexpectedEOF], unless the file could not be opened
    at all, whose error it passes on. *)
Theorem ReadAt_eof_taxonomy fs blen off st :
  cache_inv st -> 0 <= off < Int64.half ->
  files_ok (UpvertedFiles (info fs)) -> (0 < blen)%nat ->
  exists d err st',
    ReadAt fs blen off st = Done (d, err) st' /\
    (length d <= blen)%nat /\
    (err = None <-> length d = blen) /\
    ((length d < blen)%nat ->
     TotalLength (info fs) <= off + Z.of_nat (length d) -> err = Some EOF) /\
    (err = Some EOF -> off <= TotalLength (info fs) ->
     off + Z.of_nat (length d) = TotalLength (info fs)) /\
    (TotalLength (info fs) <= off -> d = [] /\ err = Some EOF) /\
    ((length d < blen)%nat ->
     off + Z.of_nat (length d) < TotalLength (info fs) ->
     err = Some ErrUnexpectedEOF \/
     exists fi, fi ∈ UpvertedFiles (info fs) /\
                fileInfoName fs fi ∈ denied (os st) /\
                err = Some (PathError "open" (fileInfoName fs fi))).
Proof.
  intros Hinv Hoff Hok Hblen. unfold ReadAt, TotalLength.
  destruct (ReadAt_files_spec fs (UpvertedFiles (info fs)) blen off [] st Hinv Hoff Hok Hblen)
    as (d & err & st' & Hrun & _ & _ & Hout).
  exists d, err, st'. split; [exact Hrun|].
  destruct Hout as [(Hfull & Hin & ->)|[(Hshort & Hend & ->)|(Hshort & Hmid & Herr)]].
  - split; [lia|]. split; [done|]. split; [intros; lia|]. split; [done|].
    split; intros; lia.
  - split; [lia|]. split; [split; [done|intros; lia]|]. split; [done|].
    split; [intros; lia|]. split; [|intros; lia]. intros Hpast. split; [|done].
    apply length_zero_iff_nil. lia.
  - split; [lia|]. split.
    { split; [|intros; lia]. intros ->. destruct Herr as [?|(? & ? & ? & ?)]; done. }
    split; [intros; lia|]. split.
    { intros ->. destruct Herr as [?|(? & ? & ? & ?)]; done. }
    split; [intros; lia|]. done.
Qed.

(** ** Reads of a missing file (C4) *)

(** C4, as the code has it. When the walk of a read reaches, with [acc]
    read so far and a non-empty rest of the buffer, an entry whose file is
    absent on disk (and not in the handle cache), [readFileAt] gives zero
    bytes and [io.EOF], and [ReadAt] stops there: it returns the bytes read
    so far with [io.ErrUnexpectedEOF], leaves the state as it is and does not
    go on to the next entry. *)
Theorem ReadAt_missing_file_stops fs fi rest blen off acc st :
  0 <= off < Length fi -> (0 < blen)%nat ->
  handles st !! fileInfoName fs fi = None ->
  disk (os st) !! fileInfoName fs fi = None ->
  readFileAt fs fi blen off st = Done ([], Some EOF) st /\
  ReadAt_files fs (fi :: rest) blen off acc st
  = Done (acc, Some ErrUnexpectedEOF) st.
Proof.
  intros Hoff Hblen Hh Hd.
  assert (Hopen : OpenFile fs fi false st = Done (inr EOF) st).
  { destruct (OpenFile_cases fs fi false st)
      as [(h & Hh' & _)|[(_ & _ & _ & Hopen)|[(_ & [[c Hc]|?] & _)|(_ & [[c Hc]|?] & _)]]];
      congruence. }
  assert (Hread : readFileAt fs fi blen off st = Done ([], Some EOF) st).
  { unfold readFileAt. by rewrite (bind_Done _ _ _ _ _ Hopen). }
  split; [exact Hread|].
  cbn [ReadAt_files ReadAt_file].
  destruct (off <? Length fi) eqn:E; [|apply Z.ltb_ge in E; lia].
  unfold bind at 1 2. rewrite Hread. cbn [length].
  destruct blen as [|blen]; [lia|]. simpl. by rewrite app_nil_r.
Qed.

(** ** Facts about the concrete torrent *)

Lemma cache_inv_fresh w pc : cache_inv (mkState w ∅ pc).
Proof.
  split.
  - intros k h. simpl. by rewrite lookup_empty.
  - intros k1 k2 h1 h2. simpl. by rewrite lookup_empty.
Qed.

Lemma files_ok_ex : files_ok (UpvertedFiles (info fs_ex)).
Proof.
  split; [|done]. simpl. repeat constructor; simpl; lia.
Qed.


Lemma file_local_ops_clamped_witness :
  (forall blen off, 0 <= off < Int64.half ->
     exists r st' ops,
       ReadAt fs_ex blen off st_ex = Done r st' /\
       trace (os st') = trace (os st_ex) ++ ops /\
       Forall (within_files fs_ex (UpvertedFiles (info fs_ex))) ops) /\
  (forall p off, 0 <= off < Int64.half ->
     exists r st' ops,
       WriteAt fs_ex p off st_ex = Done r st' /\
       trace (os st') = trace (os st_ex) ++ ops /\
       Forall (within_files fs_ex (UpvertedFiles (info fs_ex))) ops).
Proof.
  exact (file_local_ops_clamped fs_ex st_ex (cache_inv_fresh _ _) files_ok_ex).
Defined.



Lemma ReadAt_eof_taxonomy_witness :
  exists d err st',
    ReadAt fs_ex 4 5 st_b = Done (d, err) st' /\
    (length d <= 4)%nat /\
    (err = None <-> length d = 4%nat) /\
    ((length d < 4)%nat ->
     TotalLength (info fs_ex) <= 5 + Z.of_nat (length d) -> err = Some EOF) /\
    (err = Some EOF -> 5 <= TotalLength (info fs_ex) ->
     5 + Z.of_nat (length d) = TotalLength (info fs_ex)) /\
    (TotalLength (info fs_ex) <= 5 -> d = [] /\ err = Some EOF) /\
    ((length d < 4)%nat ->
     5 + Z.of_nat (length d) < TotalLength (info fs_ex) ->
     err = Some ErrUnexpectedEOF \/
     exists fi, fi ∈ UpvertedFiles (info fs_ex) /\
                fileInfoName fs_ex fi ∈ denied (os st_b) /\
                err = Some (PathError "open" (fileInfoName fs_ex fi))).
Proof.
  apply (ReadAt_eof_taxonomy fs_ex 4 5 st_b).
  - apply cache_inv_fresh.
  - done.
  - apply files_ok_ex.
  - lia.
Defined.

Lemma ReadAt_missing_file_stops_witness :
  readFileAt fs_ex fi_a 4 0 st_b = Done ([], Some EOF) st_b /\
  ReadAt_files fs_ex [fi_a; fi_b] 4 0 [] st_b
  = Done ([], Some ErrUnexpectedEOF) st_b.
Proof.
  apply (ReadAt_missing_file_stops fs_ex fi_a [fi_b] 4 0 [] st_b).
  - simpl. lia.
  - lia.
  - done.
  - done.
Defined.

(** C4, as stated, fails. In [st_b] only the file of [b] exists. The read of
    three bytes over [a] then [b] finds the file of [a] absent and returns
    no byte and [io.ErrUnexpectedEOF], whereas the walk over [b] alone gives
    the three bytes of [b]: the absent file is fatal to the read and the walk
    does not go on into the next entry. *)
Lemma missing_file_read_is_fatal :
  (handles st_b !! fileInfoName fs_ex fi_a = None /\
   disk (os st_b) !! fileInfoName fs_ex fi_a = None /\
   ReadAt_files fs_ex [fi_a; fi_b] 3 0 [] st_b
   = Done ([], Some ErrUnexpectedEOF) st_b /\
   exists st', ReadAt_files fs_ex [fi_b] 3 0 [] st_b
               = Done ([Byte.x03; Byte.x04; Byte.x05], None) st') /\
  ~ (forall fs fi rest blen off st,
       0 <= off < Length fi -> (0 < blen)%nat ->
       handles st !! fileInfoName fs fi = None ->
       disk (os st) !! fileInfoName fs fi = None ->
       exists r st1 st2,
         ReadAt_files fs (fi :: rest) blen off [] st = Done r st1 /\
         ReadAt_files fs rest blen 0 [] st = Done r st2).
Proof.
  split.
  - split; [done|]. split; [done|]. split; [by vm_compute|].
    eexists. by vm_compute.
  - intros H.
    destruct (H fs_ex fi_a [fi_b] 3%nat 0 st_b) as (r & st1 & st2 & H1 & H2);
      [simpl; lia|lia|done|done|].
    vm_compute in H1. vm_compute in H2. congruence.
Qed.

(** ** Runs on the concrete torrent *)

Example run_write_read_across_entries :
  returned ((let* _ := WriteAt fs_ex [Byte.x01; Byte.x02; Byte.x03] 1 in
             ReadAt fs_ex 3 1) st_ex)
  = Some ([Byte.x01; Byte.x02; Byte.x03], None).
Proof. by vm_compute. Qed.

Example run_write_past_the_end :
  returned (WriteAt fs_ex [Byte.x01; Byte.x02; Byte.x03] 3 st_ex) = Some (2%nat, None).
Proof. by vm_compute. Qed.

Example run_read_at_total_length :
  returned (ReadAt fs_ex 4 5 st_short) = Some ([], Some EOF).
Proof. by vm_compute. Qed.

Example run_read_up_to_the_end :
  returned (ReadAt fs_ex 4 3 st_b) = Some ([Byte.x04; Byte.x05], Some EOF).
Proof. by vm_compute. Qed.

Example run_read_truncated_file :
  returned (ReadAt fs_ex 4 1 st_short) = Some ([Byte.x02; Byte.x03], Some ErrUnexpectedEOF).
Proof. by vm_compute. Qed.

Example run_read_missing_file :
  returned (ReadAt fs_ex 4 0 st_b) = Some ([], Some ErrUnexpectedEOF).
Proof. by vm_compute. Qed.

(** Two entries that are not independent files: both name the file [a], and
    the write for the second entry lands on the bytes of the first. *)
Example run_same_file_twice :
  returned ((let* _ := WriteAt fs_dup [Byte.x01; Byte.x02; Byte.x03; Byte.x04] 0 in
             ReadAt fs_dup 4 0) st_ex)
  = Some ([Byte.x03; Byte.x04; Byte.x03; Byte.x04], None).
Proof. by vm_compute. Qed.

(** At the least [int64] offset the clamp [fi.Length - off] wraps around to
    a negative bound of the slice. *)
Example run_read_offset_wraps :
  ReadAt fs_ex 1 (-9223372036854775808) st_z = Abort SliceBounds.
Proof. by vm_compute. Qed.

Example run_completion_downgrade :
  returned (Completion piece0_ex st_claimed) = Some (mkCompletion false true).
Proof. by vm_compute. Qed.

(** ** Round trip (C1) *)



Lemma holds_frame fs st st' files : forall off p,
  0 <= off ->
  Forall (fun fi => 0 <= Length fi) files ->
  (forall fi, fi ∈ files -> 0 < Length fi ->
     file_content (os st') (fileInfoName fs fi) = file_content (os st) (fileInfoName fs fi)) ->
  (forall fi, readable fs fi st -> readable fs fi st') ->
  holds fs st files off p -> holds fs st' files off p.
Proof.
  induction files as [|fi rest IH]; intros off p Hoff Hall Hc Hr; [done|].
  inversion Hall as [|? ? Hfi Hrest]; subst.
  simpl. destruct (off >=? Length fi) eqn:E.
  - rewrite Z.geb_leb in E. apply Z.leb_le in E.
    apply IH; [lia|done| |done]. intros fj Hin. apply Hc. by right.
  - rewrite Z.geb_leb in E. apply Z.leb_gt in E.
    intros (Hrd & Hdata & Hnext). split; [by apply Hr|]. split.
    + rewrite Hc; [done|by left|lia].
    + intros Hlt. apply IH; [done|done| |done|by apply Hnext].
      intros fj Hin. apply Hc. by right.
Qed.


(** Reading a range that holds [p] gives back [p] and no error. *)
Lemma ReadAt_files_holds fs files : forall p off acc st,
  cache_inv st -> 0 <= off < Int64.half -> files_ok files -> p <> [] ->
  holds fs st files off p ->
  exists st',
    ReadAt_files fs files (length p) off acc st = Done (acc ++ p, None) st' /\
    evolves (within_files fs files) st st' /\
    disk (os st') = disk (os st).
Proof.
  induction files as [|fi rest IH]; intros p off acc st Hinv Hoff Hok Hne Hholds;
    [done|].
  destruct (files_ok_cons _ _ Hok) as (Hfi & Hok' & Htot').
  assert (Hall' : Forall (fun fi => 0 <= Length fi) rest) by apply Hok'.
  assert (Hplen : (0 < length p)%nat).
  { destruct p; [done|simpl; lia]. }
  cbn [ReadAt_files].
  destruct (ReadAt_file_spec fs fi (S (length p)) (length p) off acc st)
    as (ctl & st1 & Hrun & Hev1 & Hdisk1 & Hres); try lia; [done|].
  rewrite (bind_Done _ _ _ _ _ Hrun). clear Hrun.
  assert (Hev1' : evolves (within_files fs (fi :: rest)) st st1).
  { eapply evolves_weaken; [|exact Hev1]. apply within_files_head. }
  assert (Hinv1 : cache_inv st1) by (by apply Hev1).
  assert (Hholds1 : forall off' p', 0 <= off' ->
            holds fs st rest off' p' -> holds fs st1 rest off' p').
  { intros off' p' Hoff'. apply holds_frame; [done|done| |].
    - intros fj _ _. unfold file_content. by rewrite Hdisk1.
    - intros fj. by apply readable_evolves with (P := within_entry fs fi). }
  simpl in Hholds. unfold read_entry_result in Hres.
  set (name := fileInfoName fs fi) in *.
  set (n1 := (length p `min` Z.to_nat (Length fi - off))%nat) in *.
  set (d := take n1 (drop (Z.to_nat off) (file_content (os st) name))) in *.
  destruct Hres as [(Hge & ->)|[(Hlt & Hrd & Hres)|(Hlt & Hnr & Hres)]].
  - replace (off >=? Length fi) with true in Hholds
      by (symmetry; rewrite Z.geb_leb; by apply Z.leb_le).
    rewrite Int64_sub_small by (unfold Int64.in_range, Int64.half in *; lia).
    destruct (IH p (off - Length fi) acc st1) as (st' & Hrun & Hev & Hdisk);
      try done; [lia|apply Hholds1; [lia|done]|].
    exists st'. split; [done|]. split; [|congruence].
    eapply evolves_trans; [exact Hev1'|].
    eapply evolves_weaken; [|exact Hev]. apply within_files_tail.
  - replace (off >=? Length fi) with false in Hholds
      by (symmetry; rewrite Z.geb_leb; apply Z.leb_gt; lia).
    destruct Hholds as (_ & Hdata & Hnext). fold d in Hdata.
    assert (Hdlen : length d = n1) by (rewrite Hdata, length_take; lia).
    destruct Hres as [(Hfull & ->)|[(Hshort & Hend & ->)|(Hshort & Hmid & ->)]].
    + exists st1. split; [|done].
      unfold ret. do 3 f_equal. rewrite Hdata. apply take_ge. lia.
    + replace (Int64.sub (Length fi) (Length fi)) with 0.
      2:{ rewrite Int64_sub_small; unfold Int64.in_range, Int64.half; lia. }
      assert (H0 : 0 <= 0 < Int64.half) by (unfold Int64.half; lia).
      assert (Hne' : drop n1 p <> []).
      { intros Hnil. apply (f_equal length) in Hnil.
        rewrite length_drop in Hnil. simpl in Hnil. lia. }
      destruct (IH (drop n1 p) 0 (acc ++ d) st1 Hinv1 H0 Hok' Hne')
        as (st' & Hrun & Hev & Hdisk).
      { apply Hholds1; [lia|]. apply Hnext. lia. }
      exists st'. split.
      { rewrite length_drop in Hrun. rewrite Hdlen, Hrun.
        do 2 f_equal. rewrite <- app_assoc, Hdata. by rewrite take_drop. }
      split; [|congruence].
      eapply evolves_trans; [exact Hev1'|].
      eapply evolves_weaken; [|exact Hev]. apply within_files_tail.
    + lia.
  - replace (off >=? Length fi) with false in Hholds
      by (symmetry; rewrite Z.geb_leb; apply Z.leb_gt; lia).
    destruct Hholds as (Hrd & _). done.
Qed.




(** ** Piece completion (C2, C5) *)

(** The loop of [Completion] changes neither the files nor the completion
    store, and lets [Complete] stand only if every required file is there
    with its required length. *)
Lemma Completion_check_spec fs required : forall c st,
  cache_inv st ->
  exists c' st',
    Completion_check fs required c st = Done c' st' /\
    evolves no_op st st' /\
    disk (os st') = disk (os st) /\
    (c' = c \/ c' = not_complete c) /\
    (Complete c' = true -> Forall (file_has_length fs st) required).
Proof.
  induction required as [|fi rest IH]; intros c st Hinv.
  - exists c, st. split; [done|]. split; [apply evolves_refl|]. split; [done|].
    split; [by left|]. intros _. constructor.
  - cbn [Completion_check].
    assert (Hstat : forall h st1,
      fname (f h) = fileInfoName fs fi -> cache_inv st1 ->
      evolves no_op st st1 -> disk (os st1) = disk (os st) ->
      exists c' st',
        (match File_Stat (os st1) (f h) with
         | None => Done (not_complete c) st1
         | Some size =>
             if size <? Length fi then Done (not_complete c) st1
             else Completion_check fs rest c st1
         end) = Done c' st' /\
        evolves no_op st st' /\ disk (os st') = disk (os st) /\
        (c' = c \/ c' = not_complete c) /\
        (Complete c' = true -> Forall (file_has_length fs st) (fi :: rest))).
    { intros h st1 Hname Hinv1 Hev1 Hdisk1. unfold File_Stat.
      rewrite Hname, Hdisk1.
      destruct (disk (os st) !! fileInfoName fs fi) as [content|] eqn:Hc; simpl.
      2:{ exists (not_complete c), st1. split; [done|]. split; [done|]. split; [done|].
          split; [by right|]. done. }
      destruct (Z.of_nat (length content) <? Length fi) eqn:Hsz.
      { exists (not_complete c), st1. split; [done|]. split; [done|]. split; [done|].
        split; [by right|]. done. }
      apply Z.ltb_ge in Hsz.
      destruct (IH c st1 Hinv1) as (c' & st' & Hrun & Hev & Hdisk & Hc' & Hall).
      exists c', st'. split; [done|]. split; [by eapply evolves_trans|].
      split; [congruence|]. split; [done|].
      intros Hcomp. constructor.
      - exists content. done.
      - eapply Forall_impl; [by apply Hall|].
        intros fj (content' & Hl & Hsize). exists content'. by rewrite <- Hdisk1. }
    destruct (OpenFile_cases fs fi false st)
      as [(h & Hh & Hopen)|[(Hh & Hd & _ & Hopen)|[(Hh & Hd & Hden & Hopen)|(Hh & Hd & Hden & Hopen)]]];
      rewrite (bind_Done _ _ _ _ _ Hopen).
    + destruct Hinv as [Hwf Hinj]. destruct (Hwf _ _ Hh) as (_ & Hname & _).
      apply Hstat; [done|by split|apply evolves_refl|done].
    + exists (not_complete c), st. split; [done|]. split; [apply evolves_refl|].
      split; [done|]. split; [by right|]. done.
    + exists (not_complete c), st. split; [done|]. split; [apply evolves_refl|].
      split; [done|]. split; [by right|]. done.
    + apply Hstat; [done| |by apply evolves_opened|].
      * by apply cache_inv_opened.
      * destruct Hd as [[content Hc]|?]; [|done].
        unfold opened; simpl. by rewrite Hc.
Qed.

(** The two paths through [Completion]. *)
Lemma Completion_spec me st :
  cache_inv st ->
  let rec := fst (pc_Get (completion st) (pieceKey me)) in
  let err := snd (pc_Get (completion st) (pieceKey me)) in
  (is_err err || negb (Ok rec) = true /\
   Completion me st = Done (mkCompletion false false) st) \/
  (err = None /\ Ok rec = true /\
   exists c st1,
     (c = rec \/ c = not_complete rec) /\
     (Complete c = true -> Forall (file_has_length (fts me) st) (required_of me)) /\
     disk (os st1) = disk (os st) /\ evolves no_op st st1 /\
     Completion me st = Done c (if Complete c then st1 else corrected me st1)).
Proof.
  intros Hinv rec err. unfold Completion.
  assert (Hget : completion_Get (pieceKey me) st = Done (rec, err) st).
  { unfold completion_Get, rec, err. by destruct (pc_Get _ _). }
  rewrite (bind_Done _ _ _ _ _ Hget).
  destruct (is_err err || negb (Ok rec)) eqn:Hbad; [left; done|right].
  apply orb_false_iff in Hbad as [Herr Hok].
  apply negb_false_iff in Hok.
  split; [by destruct err|]. split; [done|].
  destruct (Completion_check_spec (fts me) (required_of me) rec st Hinv)
    as (c & st1 & Hrun & Hev & Hdisk & Hc & Hall).
  exists c, st1. split; [done|]. split; [done|]. split; [done|]. split; [done|].
  fold (required_of me). rewrite (bind_Done _ _ _ _ _ Hrun).
  destruct (Complete c); simpl; [done|].
  unfold bind, completion_Set, corrected, ret.
  by destruct (pc_Set (completion st1) (pieceKey me) false).
Qed.






(** ** The handle cache (C8) *)

Lemma cache_inv_one_handle st : cache_inv st -> one_handle_per_path st.
Proof.
  intros [Hwf _] k1 k2 h1 h2 H1 H2 Hp.
  destruct (Hwf _ _ H1) as (Hp1 & _). destruct (Hwf _ _ H2) as (Hp2 & _).
  assert (k1 = k2) by congruence. subst. split; [done|congruence].
Qed.

Lemma Completion_cache_inv me st c st' :
  cache_inv st -> Completion me st = Done c st' -> cache_inv st'.
Proof.
  intros Hinv Hrun.
  destruct (Completion_spec me st Hinv)
    as [(_ & Hrun')|(_ & _ & c' & st1 & _ & _ & _ & Hev & Hrun')];
    rewrite Hrun in Hrun'.
  - by injection Hrun' as _ ->.
  - injection Hrun' as _ ->.
    assert (cache_inv st1) by (by apply Hev).
    by destruct (Complete c').
Qed.

(** C8. The handle map of a torrent store holds at most one handle per
    file path, and the operations keep it so: [OpenFile] returns the handle
    already cached for the path of the entry, or caches the one it opens and
    keeps every other; opening the same entry again, creatable or not,
    returns that same handle and changes nothing; reads, writes and the
    completion check keep the invariant of the map. *)
Theorem handle_cache_unique_and_reused fs st :
  cache_inv st ->
  one_handle_per_path st /\
  (forall fi creatable,
     exists r st',
       OpenFile fs fi creatable st = Done r st' /\
       cache_inv st' /\ one_handle_per_path st' /\
       (forall k h, handles st !! k = Some h -> handles st' !! k = Some h) /\
       (forall h, r = inl h ->
          handles st' !! fileInfoName fs fi = Some h /\
          path h = fileInfoName fs fi /\
          forall creatable', OpenFile fs fi creatable' st' = Done (inl h) st')) /\
  (files_ok (UpvertedFiles (info fs)) ->
   forall off, 0 <= off < Int64.half ->
     (forall blen r st', ReadAt fs blen off st = Done r st' ->
        cache_inv st' /\ one_handle_per_path st') /\
     (forall p r st', WriteAt fs p off st = Done r st' ->
        cache_inv st' /\ one_handle_per_path st')) /\
  (forall me c st', Completion me st = Done c st' ->
     cache_inv st' /\ one_handle_per_path st').
Proof.
  intros Hinv. split; [by apply cache_inv_one_handle|]. split; [|split].
  - intros fi creatable.
    destruct (OpenFile_evolves no_op fs fi creatable st)
      as (r & st' & Hrun & Hev & _ & _ & Hr).
    assert (Hinv' : cache_inv st') by (by apply Hev).
    exists r, st'. split; [done|]. split; [done|].
    split; [by apply cache_inv_one_handle|]. split; [apply Hev|].
    intros h ->.
    assert (Hl : handles st' !! fileInfoName fs fi = Some h).
    { destruct (Hr h eq_refl) as [[Hl _]|[Hl ->]]; done. }
    split; [done|]. split; [by apply Hinv'|].
    intros creatable'. unfold OpenFile. by rewrite Hl.
  - intros Hok off Hoff. split.
    + intros blen r st' Hrun. unfold ReadAt in Hrun.
      destruct (ReadAt_files_evolves fs (UpvertedFiles (info fs)) blen off [] st Hinv Hoff Hok)
        as (r' & st'' & Hrun' & Hev & _).
      rewrite Hrun in Hrun'. injection Hrun' as _ <-.
      assert (cache_inv st') by (by apply Hev).
      split; [done|by apply cache_inv_one_handle].
    + intros p r st' Hrun. unfold WriteAt in Hrun.
      destruct (WriteAt_files_evolves fs (UpvertedFiles (info fs)) p off 0%nat st Hinv Hoff Hok)
        as (r' & st'' & Hrun' & Hev).
      rewrite Hrun in Hrun'. injection Hrun' as _ <-.
      assert (cache_inv st') by (by apply Hev).
      split; [done|by apply cache_inv_one_handle].
  - intros me c st' Hrun.
    assert (cache_inv st') by (by eapply Completion_cache_inv).
    split; [done|by apply cache_inv_one_handle].
Qed.

Lemma handle_cache_unique_and_reused_witness :
  one_handle_per_path st_ex /\
  (forall fi creatable,
     exists r st',
       OpenFile fs_ex fi creatable st_ex = Done r st' /\
       cache_inv st' /\ one_handle_per_path st' /\
       (forall k h, handles st_ex !! k = Some h -> handles st' !! k = Some h) /\
       (forall h, r = inl h ->
          handles st' !! fileInfoName fs_ex fi = Some h /\
          path h = fileInfoName fs_ex fi /\
          forall creatable', OpenFile fs_ex fi creatable' st' = Done (inl h) st')) /\
  (files_ok (UpvertedFiles (info fs_ex)) ->
   forall off, 0 <= off < Int64.half ->
     (forall blen r st', ReadAt fs_ex blen off st_ex = Done r st' ->
        cache_inv st' /\ one_handle_per_path st') /\
     (forall p r st', WriteAt fs_ex p off st_ex = Done r st' ->
        cache_inv st' /\ one_handle_per_path st')) /\
  (forall me c st', Completion me st_ex = Done c st' ->
     cache_inv st' /\ one_handle_per_path st').
Proof.
  exact (handle_cache_unique_and_reused fs_ex st_ex (cache_inv_fresh _ _)).
Defined.

(** ** Zero-length files (C9) *)

Lemma with_disk_id w : with_disk w (disk w) = w.
Proof. by destruct w. Qed.

Lemma materialized_out info dir files : forall d name,
  (forall g, g ∈ files -> Length g = 0 -> native_name info dir g <> name) ->
  materialized info dir files d !! name = d !! name.
Proof.
  induction files as [|fi rest IH]; intros d name Hout; [done|].
  simpl. rewrite IH by (intros g Hg; apply Hout; by right).
  destruct (Length fi =? 0) eqn:E; [|done].
  apply Z.eqb_eq in E. apply lookup_insert_ne. apply Hout; [by left|done].
Qed.

Lemma materialized_in info dir files : forall d g,
  g ∈ files -> Length g = 0 ->
  materialized info dir files d !! native_name info dir g = Some [].
Proof.
  induction files as [|fi rest IH]; intros d g Hin Hz; [by apply not_elem_of_nil in Hin|].
  simpl. apply elem_of_cons in Hin as [->|Hin]; [|by apply IH].
  rewrite Hz. simpl.
  destruct (decide (Exists (fun g' => Length g' = 0 /\
                                      native_name info dir g' = native_name info dir fi) rest))
    as [Hex|Hnex].
  - apply Exists_exists in Hex as (g' & Hin' & Hz' & Hname).
    rewrite <- Hname. by apply IH.
  - rewrite materialized_out; [by rewrite lookup_insert_eq|].
    intros g' Hin' Hz' Hname. apply Hnex. apply Exists_exists. eauto.
Qed.

Lemma materialized_idempotent info dir files d :
  materialized info dir files (materialized info dir files d)
  = materialized info dir files d.
Proof.
  apply map_eq. intros name.
  destruct (decide (Exists (fun g => Length g = 0 /\ native_name info dir g = name) files))
    as [Hex|Hnex].
  - apply Exists_exists in Hex as (g & Hin & Hz & <-).
    by rewrite !materialized_in.
  - rewrite materialized_out; [done|].
    intros g Hin Hz Hname. apply Hnex. apply Exists_exists. eauto.
Qed.

Lemma CreateNativeZeroLengthFiles_loop_ok info dir files : forall w,
  Forall (creatable_entry info dir w) files ->
  CreateNativeZeroLengthFiles_loop info dir files w
  = (None, with_disk w (materialized info dir files (disk w))).
Proof.
  induction files as [|fi rest IH]; intros w Hall.
  - simpl. by rewrite with_disk_id.
  - inversion Hall as [|? ? Hfi Hrest]; subst.
    cbn [CreateNativeZeroLengthFiles_loop materialized].
    fold (native_name info dir fi).
    destruct (Length fi =? 0) eqn:E; cbn [negb]; [|by apply IH].
    apply Z.eqb_eq in E. unfold os_Create.
    destruct (decide (native_name info dir fi ∈ denied w)) as [Hin|_];
      [by destruct (Hfi E)|].
    rewrite IH; [done|]. done.
Qed.

Lemma CreateNativeZeroLengthFiles_loop_fail info dir pre fi post : forall w,
  Forall (creatable_entry info dir w) pre ->
  Length fi = 0 -> native_name info dir fi ∈ denied w ->
  CreateNativeZeroLengthFiles_loop info dir (pre ++ fi :: post) w
  = (Some (PathError "open" (native_name info dir fi)),
     with_disk w (materialized info dir pre (disk w))).
Proof.
  induction pre as [|g pre IH]; intros w Hall Hz Hden.
  - cbn [app CreateNativeZeroLengthFiles_loop materialized].
    fold (native_name info dir fi). rewrite Hz. cbn [Z.eqb negb]. unfold os_Create.
    destruct (decide (native_name info dir fi ∈ denied w)); [|done].
    by rewrite with_disk_id.
  - inversion Hall as [|? ? Hg Hrest]; subst.
    cbn [app CreateNativeZeroLengthFiles_loop materialized].
    fold (native_name info dir g).
    destruct (Length g =? 0) eqn:E; cbn [negb]; [|by apply IH].
    apply Z.eqb_eq in E. unfold os_Create.
    destruct (decide (native_name info dir g ∈ denied w)) as [Hin|_];
      [by destruct (Hg E)|].
    rewrite IH; [done|done|done|done].
Qed.

(** C9. The materializer goes through the entries in order and creates
    files for the entries of length 0 only.  At the first such entry whose
    file cannot be created it stops and returns that error, [OpenTorrent]
    fails with it, and the files created for the earlier zero-length
    entries stay on disk, while nothing else on disk is touched.  When
    every creation succeeds it returns no error, every zero-length entry has
    an empty file, and opening again returns no error and leaves the file
    system as it is. *)
Theorem zero_length_files_error_policy c info infoHash w :
  let dir := pathMaker c (baseDir c) info infoHash in
  (forall pre fi post,
     UpvertedFiles info = pre ++ fi :: post ->
     Forall (creatable_entry info dir w) pre ->
     Length fi = 0 -> native_name info dir fi ∈ denied w ->
     exists w',
       CreateNativeZeroLengthFiles info dir w
       = (Some (PathError "open" (native_name info dir fi)), w') /\
       OpenTorrent c info infoHash w
       = (inr (PathError "open" (native_name info dir fi)), w') /\
       (forall g, g ∈ pre -> Length g = 0 ->
          disk w' !! native_name info dir g = Some []) /\
       (forall name,
          (forall g, g ∈ pre -> Length g = 0 -> native_name info dir g <> name) ->
          disk w' !! name = disk w !! name)) /\
  (Forall (creatable_entry info dir w) (UpvertedFiles info) ->
   exists w',
     CreateNativeZeroLengthFiles info dir w = (None, w') /\
     OpenTorrent c info infoHash w = (inl (mkTorrent dir info infoHash, ∅), w') /\
     (forall g, g ∈ UpvertedFiles info -> Length g = 0 ->
        disk w' !! native_name info dir g = Some []) /\
     (forall name,
        (forall g, g ∈ UpvertedFiles info -> Length g = 0 ->
           native_name info dir g <> name) ->
        disk w' !! name = disk w !! name) /\
     CreateNativeZeroLengthFiles info dir w' = (None, w') /\
     OpenTorrent c info infoHash w' = (inl (mkTorrent dir info infoHash, ∅), w')).
Proof.
  intros dir. split.
  - intros pre fi post Hfiles Hpre Hz Hden.
    exists (with_disk w (materialized info dir pre (disk w))).
    assert (Hrun : CreateNativeZeroLengthFiles info dir w
                   = (Some (PathError "open" (native_name info dir fi)),
                      with_disk w (materialized info dir pre (disk w)))).
    { unfold CreateNativeZeroLengthFiles. rewrite Hfiles.
      by apply CreateNativeZeroLengthFiles_loop_fail. }
    split; [done|]. split.
    { unfold OpenTorrent. fold dir. by rewrite Hrun. }
    split.
    + intros g Hin Hg. simpl. by apply materialized_in.
    + intros name Hout. simpl. by apply materialized_out.
  - intros Hall.
    set (w' := with_disk w (materialized info dir (UpvertedFiles info) (disk w))).
    assert (Hrun : CreateNativeZeroLengthFiles info dir w = (None, w')).
    { by apply CreateNativeZeroLengthFiles_loop_ok. }
    assert (Hrun' : CreateNativeZeroLengthFiles info dir w' = (None, w')).
    { unfold CreateNativeZeroLengthFiles.
      rewrite CreateNativeZeroLengthFiles_loop_ok by done.
      unfold w', with_disk. simpl. by rewrite materialized_idempotent. }
    exists w'. split; [done|]. split.
    { unfold OpenTorrent. fold dir. by rewrite Hrun. }
    split.
    { intros g Hin Hg. simpl. by apply materialized_in. }
    split.
    { intros name Hout. simpl. by apply materialized_out. }
    split; [done|].
    unfold OpenTorrent. fold dir. by rewrite Hrun'.
Qed.

Lemma zero_length_files_error_policy_witness :
  (exists w',
     CreateNativeZeroLengthFiles info_z "d" w_refusing
     = (Some (PathError "open" "d/t/z2"), w') /\
     OpenTorrent client_ex info_z "h" w_refusing
     = (inr (PathError "open" "d/t/z2"), w') /\
     (forall g, g ∈ [fi_z1; fi_a] -> Length g = 0 ->
        disk w' !! native_name info_z "d" g = Some []) /\
     (forall name,
        (forall g, g ∈ [fi_z1; fi_a] -> Length g = 0 ->
           native_name info_z "d" g <> name) ->
        disk w' !! name = disk w_refusing !! name)) /\
  (exists w',
     CreateNativeZeroLengthFiles info_z "d" w_empty = (None, w') /\
     OpenTorrent client_ex info_z "h" w_empty
     = (inl (mkTorrent "d" info_z "h", ∅), w') /\
     (forall g, g ∈ UpvertedFiles info_z -> Length g = 0 ->
        disk w' !! native_name info_z "d" g = Some []) /\
     (forall name,
        (forall g, g ∈ UpvertedFiles info_z -> Length g = 0 ->
           native_name info_z "d" g <> name) ->
        disk w' !! name = disk w_empty !! name) /\
     CreateNativeZeroLengthFiles info_z "d" w' = (None, w') /\
     OpenTorrent client_ex info_z "h" w'
     = (inl (mkTorrent "d" info_z "h", ∅), w')).
Proof.
  split.
  - apply (proj1 (zero_length_files_error_policy client_ex info_z "h" w_refusing)
             [fi_z1; fi_a] fi_z2 []).
    + done.
    + repeat constructor.
      * intros _. vm_compute. set_solver.
      * intros H. discriminate H.
    + done.
    + vm_compute. set_solver.
  - apply (proj2 (zero_length_files_error_policy client_ex info_z "h" w_empty)).
    repeat constructor; intros _; simpl; apply not_elem_of_empty.
Defined.


(** * Further properties *)

(** ** Reads leave the files alone *)

(** X1. A read never changes the file system nor the completion store: it
    creates no file (although [OpenFile] opens with O_CREATE), changes no
    content, and keeps every cached handle; at most it caches handles. *)
Theorem ReadAt_changes_no_file fs blen off st :
  cache_inv st -> 0 <= off < Int64.half -> files_ok (UpvertedFiles (info fs)) ->
  exists r st',
    ReadAt fs blen off st = Done r st' /\
    disk (os st') = disk (os st) /\
    denied (os st') = denied (os st) /\
    completion st' = completion st /\
    (forall k h, handles st !! k = Some h -> handles st' !! k = Some h).
Proof.
  intros Hinv Hoff Hok. unfold ReadAt.
  destruct (ReadAt_files_evolves fs (UpvertedFiles (info fs)) blen off [] st Hinv Hoff Hok)
    as (r & st' & Hrun & Hev & Hdisk).
  exists r, st'. split; [done|]. split; [done|].
  destruct Hev as (Hden & Hpc & Hh & _). done.
Qed.

Lemma ReadAt_changes_no_file_witness :
  exists r st',
    ReadAt fs_ex 4 1 st_b = Done r st' /\
    disk (os st') = disk (os st_b) /\
    denied (os st') = denied (os st_b) /\
    completion st' = completion st_b /\
    (forall k h, handles st_b !! k = Some h -> handles st' !! k = Some h).
Proof.
  apply (ReadAt_changes_no_file fs_ex 4 1 st_b).
  - apply cache_inv_fresh.
  - done.
  - apply files_ok_ex.
Defined.

(** ** Reads into an empty buffer *)

Lemma ReadAt_files_empty fs files : forall off acc st,
  cache_inv st -> 0 <= off < Int64.half -> files_ok files ->
  exists st',
    ReadAt_files fs files 0 off acc st
    = Done (acc, if off <? TotalLengthOf files then None else Some EOF) st'.
Proof.
  induction files as [|fi rest IH]; intros off acc st Hinv Hoff Hok.
  - exists st. simpl. replace (off <? 0) with false; [done|].
    symmetry. apply Z.ltb_ge. lia.
  - destruct (files_ok_cons _ _ Hok) as (Hfi & Hok' & Htot').
    cbn [ReadAt_files]. rewrite TotalLengthOf_cons.
    destruct (ReadAt_file_spec fs fi 1 0 off acc st)
      as (ctl & st1 & Hrun & Hev1 & Hdisk1 & Hres); try lia; [done|].
    rewrite (bind_Done _ _ _ _ _ Hrun). clear Hrun.
    assert (Hinv1 : cache_inv st1) by (by apply Hev1).
    unfold read_entry_result in Hres. simpl in Hres.
    destruct Hres as [(Hge & ->)|[(Hlt & Hrd & Hres)|(Hlt & Hnr & Hres)]].
    + rewrite Int64_sub_small by (unfold Int64.in_range, Int64.half in *; lia).
      destruct (IH (off - Length fi) acc st1) as (st' & Hrun); try done; [lia|].
      exists st'. rewrite Hrun. do 2 f_equal.
      destruct (off - Length fi <? TotalLengthOf rest) eqn:E1;
        destruct (off <? Length fi + TotalLengthOf rest) eqn:E2; try done;
        rewrite ?Z.ltb_lt, ?Z.ltb_ge in *; lia.
    + replace (off <? Length fi + TotalLengthOf rest) with true
        by (symmetry; apply Z.ltb_lt; lia).
      destruct Hres as [(_ & ->)|[(Hc & _)|(Hc & _)]]; [|lia|lia].
      exists st1. unfold ret. by rewrite app_nil_r.
    + replace (off <? Length fi + TotalLengthOf rest) with true
        by (symmetry; apply Z.ltb_lt; lia).
      destruct Hres as [(_ & ->)|(Hc & _)]; [|done].
      exists st1. done.
Qed.

(** X2. A read into an empty buffer returns no error at any offset inside
    the torrent, whatever the state of the files (a file that is missing or
    cannot be opened goes unnoticed), and [io.EOF] at or past the total
    length. *)
Theorem ReadAt_empty_buffer fs off st :
  cache_inv st -> 0 <= off < Int64.half -> files_ok (UpvertedFiles (info fs)) ->
  exists st',
    ReadAt fs 0 off st
    = Done ([], if off <? TotalLength (info fs) then None else Some EOF) st'.
Proof.
  intros Hinv Hoff Hok. unfold ReadAt, TotalLength.
  by apply ReadAt_files_empty.
Qed.

Lemma ReadAt_empty_buffer_witness :
  exists st', ReadAt fs_ex 0 1 st_b = Done ([], None) st'.
Proof.
  apply (ReadAt_empty_buffer fs_ex 1 st_b).
  - apply cache_inv_fresh.
  - done.
  - apply files_ok_ex.
Defined.

(** ** File-local reads *)

(** X3. "Returns EOF on short or missing file": inside an entry and for a
    non-empty buffer, [readFileAt] returns the bytes the file has in the clamped range
    [[off, off + min(len(b), fi.Length - off))], with a nil error exactly when
    the file has the whole range and [io.EOF] exactly when it has less; a
    file that is missing (and not cached) gives no byte and [io.EOF], and one
    that exists but cannot be opened gives the error of the open. *)
Theorem readFileAt_eof_on_short_or_missing fs fi blen off st :
  cache_inv st -> 0 <= off < Length fi -> Length fi < Int64.half ->
  (0 < blen)%nat ->
  let name := fileInfoName fs fi in
  let m := (blen `min` Z.to_nat (Length fi - off))%nat in
  let c := file_content (os st) name in
  exists d err st',
    readFileAt fs fi blen off st = Done (d, err) st' /\
    (readable fs fi st ->
     d = take m (drop (Z.to_nat off) c) /\
     (err = None <-> Z.to_nat off + m <= length c)%nat /\
     (err = Some EOF <-> length c < Z.to_nat off + m)%nat) /\
    (~ readable fs fi st ->
     d = [] /\ st' = st /\
     (disk (os st) !! name = None -> err = Some EOF) /\
     (is_Some (disk (os st) !! name) -> err = Some (PathError "open" name))).
Proof.
  intros Hinv Hoff Hlen Hblen name m c.
  assert (Hm : (0 < m)%nat) by (subst m; lia).
  destruct (readFileAt_spec fs fi blen off st Hinv Hoff Hlen)
    as [(Hrd & st' & Hrun & _)|(Hnr & Hnone & Hrun)].
  - eexists _, _, st'. split; [exact Hrun|]. split; [|done].
    intros _. fold name c m. split; [done|].
    rewrite length_take, length_drop.
    destruct (_ <? m)%nat eqn:E; [apply Nat.ltb_lt in E|apply Nat.ltb_ge in E];
      split; split; intros H; try done; lia.
  - eexists _, _, st. split; [exact Hrun|]. split; [done|].
    intros _. split; [done|]. split; [done|].
    unfold open_error, os_exists. fold name.
    destruct (disk (os st) !! name); split; try done;
      try (intros [x Hx]; done).
Qed.

Lemma readFileAt_eof_on_short_or_missing_witness :
  exists d err st',
    readFileAt fs_ex fi_b 4 0 st_short = Done (d, err) st' /\
    (readable fs_ex fi_b st_short ->
     d = take 3 (drop 0 (file_content (os st_short) "d/t/b")) /\
     (err = None <-> 0 + 3 <= length (file_content (os st_short) "d/t/b"))%nat /\
     (err = Some EOF <-> length (file_content (os st_short) "d/t/b") < 0 + 3)%nat) /\
    (~ readable fs_ex fi_b st_short ->
     d = [] /\ st' = st_short /\
     (disk (os st_short) !! "d/t/b" = None -> err = Some EOF) /\
     (is_Some (disk (os st_short) !! "d/t/b") -> err = Some (PathError "open" "d/t/b"))).
Proof.
  apply (readFileAt_eof_on_short_or_missing fs_ex fi_b 4 0 st_short).
  - apply cache_inv_fresh.
  - done.
  - done.
  - lia.
Defined.

(** ** What opening a file may do *)

(** X4. [OpenFile] always returns, never changes the content of a file and
    never removes one; called with [creatable = false] it leaves the file
    system exactly as it is, and for a file that is neither cached nor on
    disk it returns [io.EOF] with the state unchanged, so nothing is cached
    for it. *)
Theorem OpenFile_keeps_contents fs fi creatable st :
  exists r st',
    OpenFile fs fi creatable st = Done r st' /\
    (forall k, file_content (os st') k = file_content (os st) k) /\
    (forall k, is_Some (disk (os st) !! k) -> is_Some (disk (os st') !! k)) /\
    (creatable = false -> disk (os st') = disk (os st)) /\
    (creatable = false -> handles st !! fileInfoName fs fi = None ->
     disk (os st) !! fileInfoName fs fi = None ->
     r = inr EOF /\ st' = st).
Proof.
  destruct (OpenFile_evolves no_op fs fi creatable st)
    as (r & st' & Hrun & Hev & Hc & Hd & _).
  exists r, st'. split; [done|]. split; [done|]. split; [apply Hev|].
  split; [done|].
  intros -> Hh Hdisk.
  destruct (OpenFile_cases fs fi false st)
    as [(h & Hh' & _)|[(_ & _ & _ & Hopen)|[(_ & [[c' Hc']|?] & _)|(_ & [[c' Hc']|?] & _)]]];
    try congruence.
  rewrite Hrun in Hopen. by injection Hopen as -> ->.
Qed.

(** ** What the completion check may do *)

Lemma evolves_no_op_trace st st' :
  evolves no_op st st' -> trace (os st') = trace (os st).
Proof.
  intros (_ & _ & _ & _ & _ & ops & Htr & Hall).
  destruct ops as [|op ops]; [by rewrite app_nil_r in Htr|].
  inversion Hall as [|? ? Hop _]. destruct Hop.
Qed.

(** X5. [Completion] always returns and never reads, writes, creates or
    changes a file: the file system is as before but for handles it may have
    cached, and the completion store has received nothing or the one set
    operation [(key, false)]; it never sets a piece complete. *)
Theorem Completion_touches_no_file me st :
  cache_inv st ->
  exists c st',
    Completion me st = Done c st' /\
    disk (os st') = disk (os st) /\
    trace (os st') = trace (os st) /\
    (forall k h, handles st !! k = Some h -> handles st' !! k = Some h) /\
    (sets (completion st') = sets (completion st) \/
     sets (completion st') = sets (completion st) ++ [(pieceKey me, false)]).
Proof.
  intros Hinv.
  destruct (Completion_spec me st Hinv)
    as [(_ & Hrun)|(_ & _ & c & st1 & _ & _ & Hdisk & Hev & Hrun)].
  - exists (mkCompletion false false), st. split; [done|]. repeat split; auto.
  - pose proof (evolves_no_op_trace _ _ Hev) as Htr.
    assert (Hpc : completion st1 = completion st) by apply Hev.
    assert (Hh : forall k h, handles st !! k = Some h -> handles st1 !! k = Some h)
      by apply Hev.
    eexists c, _. split; [exact Hrun|].
    destruct (Complete c).
    + split; [done|]. split; [done|]. split; [done|]. left. by rewrite Hpc.
    + unfold corrected. simpl. split; [done|]. split; [done|]. split; [done|].
      right. rewrite Hpc. unfold pc_Set. by destruct (broken (completion st)).
Qed.

Lemma Completion_touches_no_file_witness :
  exists c st',
    Completion piece0_ex st_claimed = Done c st' /\
    disk (os st') = disk (os st_claimed) /\
    trace (os st') = trace (os st_claimed) /\
    (forall k h, handles st_claimed !! k = Some h -> handles st' !! k = Some h) /\
    (sets (completion st') = sets (completion st_claimed) \/
     sets (completion st')
     = sets (completion st_claimed) ++ [(pieceKey piece0_ex, false)]).
Proof.
  exact (Completion_touches_no_file piece0_ex st_claimed (cache_inv_fresh _ _)).
Defined.

Lemma Completion_check_pass fs required : forall c st,
  cache_inv st ->
  Forall (fun r => readable fs r st /\ file_has_length fs st r) required ->
  exists st',
    Completion_check fs required c st = Done c st' /\
    evolves no_op st st' /\ disk (os st') = disk (os st).
Proof.
  induction required as [|fi rest IH]; intros c st Hinv Hall.
  - exists st. split; [done|]. split; [apply evolves_refl|done].
  - inversion Hall as [|? ? [Hrd (content & Hc & Hsize)] Hrest]; subst.
    cbn [Completion_check].
    assert (Hstat : forall h st1,
      fname (f h) = fileInfoName fs fi -> cache_inv st1 ->
      evolves no_op st st1 -> disk (os st1) = disk (os st) ->
      exists st',
        (match File_Stat (os st1) (f h) with
         | None => Done (not_complete c) st1
         | Some size =>
             if size <? Length fi then Done (not_complete c) st1
             else Completion_check fs rest c st1
         end) = Done c st' /\
        evolves no_op st st' /\ disk (os st') = disk (os st)).
    { intros h st1 Hname Hinv1 Hev1 Hdisk1. unfold File_Stat.
      rewrite Hname, Hdisk1, Hc. simpl.
      replace (Z.of_nat (length content) <? Length fi) with false
        by (symmetry; apply Z.ltb_ge; lia).
      destruct (IH c st1 Hinv1) as (st' & Hrun & Hev & Hdisk).
      { eapply Forall_impl; [exact Hrest|]. intros r [Hr (cr & Hcr & Hsr)]. split.
        - by eapply readable_evolves.
        - exists cr. by rewrite Hdisk1. }
      exists st'. split; [done|]. split; [by eapply evolves_trans|congruence]. }
    destruct (OpenFile_cases fs fi false st)
      as [(h & Hh & Hopen)|[(Hh & Hd & _ & Hopen)|[(Hh & Hd & Hden & Hopen)|(Hh & Hd & Hden & Hopen)]]];
      rewrite (bind_Done _ _ _ _ _ Hopen).
    + destruct Hinv as [Hwf Hinj]. destruct (Hwf _ _ Hh) as (_ & Hname & _).
      apply Hstat; [done|by split|apply evolves_refl|done].
    + congruence.
    + exfalso. destruct Hrd as [[h Hs]|[_ Hn]]; [congruence|done].
    + apply Hstat; [done|by apply cache_inv_opened|by apply evolves_opened|].
      unfold opened; simpl. by rewrite Hc.
Qed.

(** X6. [Completion] confirms a record that is right: when the store has the
    piece ok and complete and the file of every required entry can be opened
    and has the required length, it returns [complete=true], issues no
    set operation (the store is left as it is) and changes no file. *)
Theorem Completion_confirms me st :
  cache_inv st ->
  pc_Get (completion st) (pieceKey me) = (mkCompletion true true, None) ->
  Forall (fun r => readable (fts me) r st /\ file_has_length (fts me) st r)
         (required_of me) ->
  exists st',
    Completion me st = Done (mkCompletion true true) st' /\
    completion st' = completion st /\
    disk (os st') = disk (os st) /\
    trace (os st') = trace (os st).
Proof.
  intros Hinv Hget Hall. unfold Completion.
  assert (Hg : completion_Get (pieceKey me) st
               = Done (mkCompletion true true, None) st).
  { unfold completion_Get. by rewrite Hget. }
  rewrite (bind_Done _ _ _ _ _ Hg). cbn [is_err Ok negb orb].
  destruct (Completion_check_pass (fts me) (required_of me) (mkCompletion true true) st
              Hinv Hall) as (st' & Hrun & Hev & Hdisk).
  fold (required_of me). rewrite (bind_Done _ _ _ _ _ Hrun).
  exists st'. split; [done|]. split; [apply Hev|]. split; [done|].
  by apply evolves_no_op_trace.
Qed.

(** The store claims piece 1 complete; both files are on disk in full. *)
Lemma Completion_confirms_witness :
  exists st',
    Completion (Piece_of fs_ex (mkPiece info_ex 1))
               (mkState (os st_full) ∅ (mkPC {[("h", 1) := true]} false []))
    = Done (mkCompletion true true) st' /\
    completion st' = mkPC {[("h", 1) := true]} false [] /\
    disk (os st') = disk (os st_full) /\
    trace (os st') = trace (os st_full).
Proof.
  apply (Completion_confirms (Piece_of fs_ex (mkPiece info_ex 1))
           (mkState (os st_full) ∅ (mkPC {[("h", 1) := true]} false []))).
  - apply cache_inv_fresh.
  - done.
  - assert (Hreq : required_of (Piece_of fs_ex (mkPiece info_ex 1))
                   = [mkFileInfo 3 ["b"]]) by (by vm_compute).
    rewrite Hreq. constructor; [|constructor]. split.
    + right. split; [by eexists|]. apply not_elem_of_empty.
    + eexists. split; [reflexivity|]. simpl. lia.
Defined.

(** ** The torrent read as one byte sequence *)

Lemma entry_bytes_length fs st fi :
  0 <= Length fi ->
  Length fi <= Z.of_nat (length (file_content (os st) (fileInfoName fs fi))) ->
  length (entry_bytes fs st fi) = Z.to_nat (Length fi).
Proof. intros H0 H. unfold entry_bytes. rewrite length_take. lia. Qed.

Lemma torrent_bytes_cons fs st fi rest :
  torrent_bytes fs st (fi :: rest) = entry_bytes fs st fi ++ torrent_bytes fs st rest.
Proof. done. Qed.

Lemma torrent_bytes_length fs st files :
  Forall (fun fi => 0 <= Length fi) files -> all_present fs st files ->
  Z.of_nat (length (torrent_bytes fs st files)) = TotalLengthOf files.
Proof.
  induction 1 as [|fi rest Hfi _ IH]; intros Hp; [done|].
  inversion Hp as [|? ? Hpfi Hprest]; subst.
  rewrite torrent_bytes_cons, length_app, TotalLengthOf_cons.
  rewrite entry_bytes_length by done. specialize (IH Hprest). lia.
Qed.

Lemma drop_entry_bytes fs st fi (o : nat) :
  drop o (entry_bytes fs st fi)
  = take (Z.to_nat (Length fi) - o)
         (drop o (file_content (os st) (fileInfoName fs fi))).
Proof.
  unfold entry_bytes. rewrite take_drop_commute.
  destruct (decide (o <= Z.to_nat (Length fi))%nat) as [Hle|Hgt].
  - by replace (o + (Z.to_nat (Length fi) - o))%nat with (Z.to_nat (Length fi)) by lia.
  - replace (Z.to_nat (Length fi) - o)%nat with 0%nat by lia.
    rewrite Nat.add_0_r. rewrite !drop_ge; [done| |];
      rewrite length_take; lia.
Qed.

(** Files that are there in full hold every range of their back-to-back
    layout. *)
Lemma all_present_holds fs st files : forall off n,
  0 <= off -> Forall (fun fi => 0 <= Length fi) files ->
  all_present fs st files -> all_readable fs st files ->
  off + Z.of_nat n <= TotalLengthOf files ->
  holds fs st files off (take n (drop (Z.to_nat off) (torrent_bytes fs st files))).
Proof.
  induction files as [|fi rest IH]; intros off n Hoff Hnn Hp Hr Hfit.
  - cbn [holds]. unfold torrent_bytes. cbn [map concat].
    by destruct (Z.to_nat off), n.
  - inversion Hnn as [|? ? Hfi Hnn']; subst.
    inversion Hp as [|? ? Hpfi Hp']; subst.
    inversion Hr as [|? ? Hrfi Hr']; subst.
    rewrite TotalLengthOf_cons in Hfit.
    pose proof (torrent_bytes_length fs st rest Hnn' Hp') as Hlenr.
    pose proof (entry_bytes_length fs st fi Hfi Hpfi) as Hlene.
    rewrite torrent_bytes_cons. cbn [holds].
    destruct (off >=? Length fi) eqn:E; rewrite Z.geb_leb in E.
    + apply Z.leb_le in E.
      rewrite drop_app_ge by lia. rewrite Hlene.
      replace (Z.to_nat off - Z.to_nat (Length fi))%nat with (Z.to_nat (off - Length fi)) by lia.
      apply IH; try done; lia.
    + apply Z.leb_gt in E.
      rewrite drop_app_le by lia.
      set (e := drop (Z.to_nat off) (entry_bytes fs st fi)).
      assert (Hle : length e = (Z.to_nat (Length fi) - Z.to_nat off)%nat).
      { subst e. rewrite length_drop. lia. }
      assert (Hlp : length (take n (e ++ torrent_bytes fs st rest)) = n).
      { rewrite length_take, length_app. lia. }
      rewrite Hlp.
      replace (Z.to_nat (Length fi - off)) with (Z.to_nat (Length fi) - Z.to_nat off)%nat by lia.
      set (n1 := (n `min` (Z.to_nat (Length fi) - Z.to_nat off))%nat).
      split; [apply Hrfi; lia|]. split.
      * rewrite take_take. replace (n1 `min` n)%nat with n1 by lia.
        rewrite take_app_le by lia.
        subst e. rewrite drop_entry_bytes, take_take.
        by replace (n1 `min` (Z.to_nat (Length fi) - Z.to_nat off))%nat with n1 by lia.
      * intros Hlt.
        assert (Hn1 : n1 = length e) by lia.
        replace n with (n1 + (n - n1))%nat at 1 by lia.
        rewrite <- take_drop_commute.
        replace (drop n1 (e ++ torrent_bytes fs st rest))
          with (torrent_bytes fs st rest)
          by (rewrite Hn1; by rewrite drop_app_length).
        change (torrent_bytes fs st rest) with (drop (Z.to_nat 0) (torrent_bytes fs st rest)).
        apply IH; try done; lia.
Qed.

(** A read inside files that are on disk in full. *)
Lemma ReadAt_files_present fs files blen off st :
  cache_inv st -> 0 <= off -> files_ok files ->
  all_present fs st files -> all_readable fs st files ->
  (0 < blen)%nat -> off + Z.of_nat blen <= TotalLengthOf files ->
  exists st',
    ReadAt_files fs files blen off [] st
    = Done (take blen (drop (Z.to_nat off) (torrent_bytes fs st files)), None) st'.
Proof.
  intros Hinv Hoff Hok Hp Hr Hblen Hfit.
  set (p := take blen (drop (Z.to_nat off) (torrent_bytes fs st files))).
  assert (Hnn : Forall (fun fi => 0 <= Length fi) files) by apply Hok.
  pose proof (torrent_bytes_length fs st files Hnn Hp) as Hlen.
  assert (Hlp : length p = blen).
  { subst p. rewrite length_take, length_drop. lia. }
  assert (Hne : p <> []).
  { intros Hnil. rewrite Hnil in Hlp. simpl in Hlp. lia. }
  assert (Hoffr : 0 <= off < Int64.half).
  { destruct Hok as [_ Htot]. lia. }
  destruct (ReadAt_files_holds fs files p off [] st Hinv Hoffr Hok Hne)
    as (st' & Hrun & _).
  { by apply all_present_holds. }
  exists st'. by rewrite <- Hlp.
Qed.

(** X7. When the files of the entries are on disk in full and can be
    opened, a read inside the torrent returns, with a nil error, exactly the
    requested range of the files laid out back to back in the order of the
    entries. *)
Theorem ReadAt_reads_files_back_to_back fs blen off st :
  cache_inv st -> 0 <= off -> files_ok (UpvertedFiles (info fs)) ->
  all_present fs st (UpvertedFiles (info fs)) ->
  all_readable fs st (UpvertedFiles (info fs)) ->
  (0 < blen)%nat -> off + Z.of_nat blen <= TotalLength (info fs) ->
  exists st',
    ReadAt fs blen off st
    = Done (take blen (drop (Z.to_nat off)
                            (torrent_bytes fs st (UpvertedFiles (info fs)))), None) st'.
Proof.
  intros Hinv Hoff Hok Hp Hr Hblen Hfit. unfold ReadAt, TotalLength in *.
  by apply ReadAt_files_present.
Qed.

Lemma all_present_full : all_present fs_ex st_full (UpvertedFiles (info fs_ex)).
Proof.
  unfold all_present. cbn [UpvertedFiles info fs_ex info_ex Files].
  repeat (apply List.Forall_cons; [by vm_compute|]). apply List.Forall_nil.
Qed.

Lemma all_readable_full : all_readable fs_ex st_full (UpvertedFiles (info fs_ex)).
Proof.
  unfold all_readable. cbn [UpvertedFiles info fs_ex info_ex Files].
  apply List.Forall_cons; [simpl; lia|].
  repeat (apply List.Forall_cons;
          [intros _; right; (split; [by eexists|apply not_elem_of_empty])|]).
  apply List.Forall_nil.
Qed.

Lemma ReadAt_reads_files_back_to_back_witness :
  exists st',
    ReadAt fs_ex 3 1 st_full = Done ([Byte.x02; Byte.x03; Byte.x04], None) st'.
Proof.
  apply (ReadAt_reads_files_back_to_back fs_ex 3 1 st_full).
  - apply cache_inv_fresh.
  - done.
  - apply files_ok_ex.
  - apply all_present_full.
  - apply all_readable_full.
  - lia.
  - done.
Defined.

(** ** A write seen on the byte sequence of the torrent *)












(** ** From a written piece to a complete one *)




(** ** The write walk, state by state *)

Lemma written_frame fs fi data off st k :
  k <> fileInfoName fs fi ->
  handles (written fs fi data off st) !! k = handles st !! k /\
  disk (os (written fs fi data off st)) !! k = disk (os st) !! k.
Proof.
  intros Hk. unfold written.
  destruct (handles st !! fileInfoName fs fi) as [h|] eqn:Hh; simpl.
  - split; [done|]. by rewrite lookup_insert_ne.
  - rewrite !lookup_insert_ne by done. split; [done|].
    destruct (disk (os st) !! fileInfoName fs fi); [done|].
    by rewrite lookup_insert_ne.
Qed.




Lemma cache_inv_written fs fi data off st :
  cache_inv st -> cache_inv (written fs fi data off st).
Proof.
  intros Hinv. unfold written.
  destruct (handles st !! fileInfoName fs fi) as [h|] eqn:Hh.
  - exact Hinv.
  - exact (cache_inv_opened st _ Hh Hinv).
Qed.

(** One step of the write walk at an entry that contains the offset, with
    the state it leaves. *)
Lemma WriteAt_entry_written fs fi rest p off n st :
  cache_inv st -> 0 <= off < Length fi -> Length fi < Int64.half ->
  writable fs fi st ->
  let n1 := (length p `min` Z.to_nat (Length fi - off))%nat in
  WriteAt_files fs (fi :: rest) p off n st
  = if (length p <=? n1)%nat
    then Done ((n + n1)%nat, None) (written fs fi (take n1 p) off st)
    else WriteAt_files fs rest (drop n1 p) 0 (n + n1)%nat
                       (written fs fi (take n1 p) off st).
Proof.
  intros Hinv Hoff Hlen Hw n1. cbn [WriteAt_files].
  destruct (off >=? Length fi) eqn:Hge; [rewrite Z.geb_leb in Hge; apply Z.leb_le in Hge; lia|].
  rewrite Int64_sub_small by (by apply in_range_sub_entry).
  set (n1z := if Z.of_nat (length p) >? Length fi - off then Length fi - off
              else Z.of_nat (length p)).
  assert (Hn1 : Z.to_nat n1z = n1 /\ 0 <= n1z).
  { subst n1z n1. destruct (Z.of_nat (length p) >? Length fi - off) eqn:Hgt.
    - apply Z.gtb_lt in Hgt. lia.
    - rewrite Z.gtb_ltb in Hgt. apply Z.ltb_ge in Hgt. lia. }
  destruct Hn1 as [Hn1 Hn1pos].
  assert (Hlen1 : length (take n1 p) = n1) by (rewrite length_take; lia).
  assert (Hwr : forall h st2,
    fname (f h) = fileInfoName fs fi ->
    st2 = match handles st !! fileInfoName fs fi with
          | Some _ => st
          | None => opened st (fileInfoName fs fi)
          end ->
    lift_os (fun w => File_WriteAt w (f h) (take n1 p) off) st2
    = Done (length (take n1 p), None) (written fs fi (take n1 p) off st)).
  { intros h st2 Hname ->. unfold lift_os, File_WriteAt, written. rewrite Hname.
    destruct (off <? 0) eqn:Hneg; [apply Z.ltb_lt in Hneg; lia|]. done. }
  destruct (OpenFile_cases fs fi true st)
    as [(h & Hh & Hopen)|[(Hh & Hd & ? & _)|[(Hh & Hd & Hden & Hopen)|(Hh & Hd & Hden & Hopen)]]];
    [|done| |].
  - destruct Hinv as [Hwf _]. destruct (Hwf _ _ Hh) as (_ & Hname & _).
    rewrite (bind_Done _ _ _ _ _ Hopen).
    destruct (n1z <? 0) eqn:Hneg; [apply Z.ltb_lt in Hneg; lia|].
    rewrite Hn1.
    rewrite (bind_Done _ _ _ _ _ (Hwr h st Hname ltac:(by rewrite Hh))).
    rewrite Hlen1, length_drop.
    destruct (length p <=? n1)%nat eqn:Hle.
    + apply Nat.leb_le in Hle.
      by replace (length p - n1 =? 0)%nat with true by (symmetry; apply Nat.eqb_eq; lia).
    + apply Nat.leb_gt in Hle.
      by replace (length p - n1 =? 0)%nat with false by (symmetry; apply Nat.eqb_neq; lia).
  - exfalso. destruct Hw as [[h Hs]|Hs]; [congruence|done].
  - rewrite (bind_Done _ _ _ _ _ Hopen).
    destruct (n1z <? 0) eqn:Hneg; [apply Z.ltb_lt in Hneg; lia|].
    rewrite Hn1.
    rewrite (bind_Done _ _ _ _ _
               (Hwr (mkHandle (mkFile (next_fd (os st)) (fileInfoName fs fi))
                              (fileInfoName fs fi))
                    (opened st (fileInfoName fs fi)) eq_refl ltac:(by rewrite Hh))).
    rewrite Hlen1, length_drop.
    destruct (length p <=? n1)%nat eqn:Hle.
    + apply Nat.leb_le in Hle.
      by replace (length p - n1 =? 0)%nat with true by (symmetry; apply Nat.eqb_eq; lia).
    + apply Nat.leb_gt in Hle.
      by replace (length p - n1 =? 0)%nat with false by (symmetry; apply Nat.eqb_neq; lia).
Qed.



(** The write walk always returns, and opens and changes only files of
    entries that hold bytes. *)
Lemma WriteAt_files_frame fs files : forall p off n st,
  cache_inv st -> 0 <= off < Int64.half -> files_ok files ->
  exists r st',
    WriteAt_files fs files p off n st = Done r st' /\
    forall k,
      (forall fi, fi ∈ files -> 0 < Length fi -> fileInfoName fs fi <> k) ->
      handles st' !! k = handles st !! k /\
      disk (os st') !! k = disk (os st) !! k.
Proof.
  induction files as [|fi rest IH]; intros p off n st Hinv Hoff Hok.
  - exists (n, None), st. done.
  - destruct (files_ok_cons _ _ Hok) as (Hfi & Hok' & Htot').
    destruct (Z_le_gt_dec (Length fi) off) as [Hge|Hlt].
    + rewrite WriteAt_skip by (unfold Int64.in_range, Int64.half in *; lia).
      destruct (IH p (off - Length fi) n st Hinv ltac:(lia) Hok')
        as (r & st' & Hrun & Hframe).
      exists r, st'. split; [done|]. intros k Hk. apply Hframe.
      intros fj Hin. apply Hk. by right.
    + destruct (writable_dec fs fi st) as [Hw|Hnw].
      * rewrite WriteAt_entry_written by (done || lia).
        set (n1 := (length p `min` Z.to_nat (Length fi - off))%nat).
        set (st1 := written fs fi (take n1 p) off st).
        assert (Hstep : forall k,
          (forall fj, fj ∈ fi :: rest -> 0 < Length fj -> fileInfoName fs fj <> k) ->
          handles st1 !! k = handles st !! k /\
          disk (os st1) !! k = disk (os st) !! k).
        { intros k Hk. apply written_frame.
          intros ->. apply (Hk fi); [by left|lia|done]. }
        destruct (length p <=? n1)%nat.
        -- exists ((n + n1)%nat, None), st1. done.
        -- assert (H0 : 0 <= 0 < Int64.half) by (unfold Int64.half; lia).
           destruct (IH (drop n1 p) 0 (n + n1)%nat st1
                        (cache_inv_written _ _ _ _ _ Hinv) H0 Hok')
             as (r & st' & Hrun & Hframe).
           exists r, st'. split; [done|]. intros k Hk.
           destruct (Hframe k) as [Hh Hd].
           { intros fj Hin. apply Hk. by right. }
           destruct (Hstep k Hk) as [Hh1 Hd1]. split; congruence.
      * rewrite WriteAt_unwritable by (done || lia).
        eexists _, st. done.
Qed.

(** X13. A write always returns, and it addresses only files of entries that
    hold bytes: the file of a zero-length entry, like any other file that is
    not the file of an entry of positive length, is neither opened (the
    handle map has no new handle for it) nor created or changed. *)
Theorem WriteAt_skips_zero_length_files fs p off st :
  cache_inv st -> 0 <= off < Int64.half ->
  files_ok (UpvertedFiles (info fs)) ->
  exists r st',
    WriteAt fs p off st = Done r st' /\
    forall k,
      (forall fi, fi ∈ UpvertedFiles (info fs) -> 0 < Length fi ->
                  fileInfoName fs fi <> k) ->
      handles st' !! k = handles st !! k /\
      disk (os st') !! k = disk (os st) !! k.
Proof.
  intros Hinv Hoff Hok. unfold WriteAt. by apply WriteAt_files_frame.
Qed.

Lemma WriteAt_skips_zero_length_files_witness :
  exists r st',
    WriteAt fs_ex [Byte.x01; Byte.x02; Byte.x03] 0 st_ex = Done r st' /\
    forall k,
      (forall fi, fi ∈ UpvertedFiles (info fs_ex) -> 0 < Length fi ->
                  fileInfoName fs_ex fi <> k) ->
      handles st' !! k = handles st_ex !! k /\
      disk (os st') !! k = disk (os st_ex) !! k.
Proof.
  apply (WriteAt_skips_zero_length_files fs_ex [Byte.x01; Byte.x02; Byte.x03] 0 st_ex).
  - apply cache_inv_fresh.
  - done.
  - apply files_ok_ex.
Defined.

(** X14. A read through a piece stays inside the piece: over files that are
    on disk in full, it returns the bytes of the back-to-back layout from its
    offset in the piece on, at most up to the end of the piece, and it
    reports [io.EOF] exactly when the buffer is longer than what the piece
    has left. *)
Theorem Piece_ReadAt_stays_in_piece (me : filePieceImpl) (blen : nat) off st :
  cache_inv st ->
  files_ok (UpvertedFiles (info (fts me))) ->
  all_present (fts me) st (UpvertedFiles (info (fts me))) ->
  all_readable (fts me) st (UpvertedFiles (info (fts me))) ->
  0 <= Offset (p me) ->
  Offset (p me) + PLength (p me) <= TotalLength (info (fts me)) ->
  0 <= off < PLength (p me) -> (0 < blen)%nat ->
  let k := (blen `min` Z.to_nat (PLength (p me) - off))%nat in
  exists st',
    Piece_ReadAt me blen off st
    = Done (take k (drop (Z.to_nat (Offset (p me) + off))
                         (torrent_bytes (fts me) st (UpvertedFiles (info (fts me))))),
            if Z.of_nat blen >? PLength (p me) - off then Some EOF else None) st'.
Proof.
  intros Hinv Hok Hpres Hrd Hbase Hfit Hoff Hblen k.
  unfold Piece_ReadAt, SectionReader_ReadAt.
  set (base := Offset (p me)) in *. set (len := PLength (p me)) in *.
  assert (Htot : TotalLength (info (fts me)) < Int64.half) by apply Hok.
  rewrite !Int64_add_small by (unfold Int64.in_range, Int64.half in *; lia).
  rewrite !Int64_sub_small by (unfold Int64.in_range, Int64.half in *; lia).
  replace (off <? 0) with false by (symmetry; apply Z.ltb_ge; lia).
  replace (off >=? base + len - base) with false
    by (symmetry; rewrite Z.geb_leb; apply Z.leb_gt; lia).
  cbn [orb].
  replace (base + len - (off + base)) with (len - off) by lia.
  destruct (ReadAt_files_present (fts me) (UpvertedFiles (info (fts me))) k
              (off + base) st Hinv ltac:(lia) Hok Hpres Hrd ltac:(lia))
    as (st' & Hrun).
  { unfold TotalLength in *. lia. }
  replace (Z.to_nat (base + off)) with (Z.to_nat (off + base)) by lia.
  exists st'. unfold ReadAt.
  destruct (Z.of_nat blen >? len - off) eqn:Hgt.
  - apply Z.gtb_lt in Hgt.
    replace (len - off <? 0) with false by (symmetry; apply Z.ltb_ge; lia).
    replace (Z.to_nat (len - off)) with k by lia.
    by rewrite (bind_Done _ _ _ _ _ Hrun).
  - rewrite Z.gtb_ltb in Hgt. apply Z.ltb_ge in Hgt.
    replace k with blen in * by lia. done.
Qed.

Lemma Piece_ReadAt_stays_in_piece_witness :
  exists st',
    Piece_ReadAt piece0_ex 4 2 st_full
    = Done ([Byte.x03; Byte.x04], Some EOF) st'.
Proof.
  apply (Piece_ReadAt_stays_in_piece piece0_ex 4 2 st_full).
  - apply cache_inv_fresh.
  - apply files_ok_ex.
  - apply all_present_full.
  - apply all_readable_full.
  - done.
  - done.
  - done.
  - lia.
Defined.

(** X15. After [MarkNotComplete] on a working store, [Completion] returns
    [complete=false, ok=true] whatever the files hold, changes no file, and
    the store still has the piece recorded as not complete. *)
Theorem MarkNotComplete_then_Completion (me : filePieceImpl) st :
  cache_inv st -> broken (completion st) = false ->
  exists st1 st2,
    MarkNotComplete me st = Done None st1 /\
    Completion me st1 = Done (mkCompletion false true) st2 /\
    disk (os st2) = disk (os st) /\
    pc_Get (completion st2) (pieceKey me) = (mkCompletion false true, None).
Proof.
  intros Hinv Hbr.
  set (st1 := mkState (os st) (handles st)
                      (mkPC (<[pieceKey me := false]> (records (completion st))) false
                            (sets (completion st) ++ [(pieceKey me, false)]))).
  assert (Hmark : MarkNotComplete me st = Done None st1).
  { unfold MarkNotComplete, completion_Set, pc_Set. by rewrite Hbr. }
  assert (Hinv1 : cache_inv st1) by exact Hinv.
  assert (Hget : pc_Get (completion st1) (pieceKey me) = (mkCompletion false true, None)).
  { unfold pc_Get. simpl. by rewrite lookup_insert_eq. }
  pose proof (Completion_spec me st1 Hinv1) as Hspec. cbv zeta in Hspec.
  rewrite Hget in Hspec. simpl in Hspec.
  destruct Hspec as [(Hbad & _)|(_ & _ & c & st2 & Hc & _ & Hdisk & Hev & Hrun)];
    [done|].
  assert (Hcr : c = mkCompletion false true) by (by destruct Hc as [->| ->]).
  subst c. simpl in Hrun.
  exists st1, (corrected me st2). split; [done|]. split; [done|]. split; [done|].
  unfold corrected, pc_Set, pc_Get. simpl.
  destruct Hev as (_ & Hcomp & _). rewrite Hcomp. simpl.
  by rewrite lookup_insert_eq.
Qed.

Lemma MarkNotComplete_then_Completion_witness :
  exists st1 st2,
    MarkNotComplete (Piece_of fs_ex (mkPiece info_ex 1)) st_full = Done None st1 /\
    Completion (Piece_of fs_ex (mkPiece info_ex 1)) st1
    = Done (mkCompletion false true) st2 /\
    disk (os st2) = disk (os st_full) /\
    pc_Get (completion st2) (pieceKey (Piece_of fs_ex (mkPiece info_ex 1)))
    = (mkCompletion false true, None).
Proof.
  apply (MarkNotComplete_then_Completion (Piece_of fs_ex (mkPiece info_ex 1)) st_full).
  - apply cache_inv_fresh.
  - done.
Defined.


